(** * Matrix-factorisation recommender (Unit 5 notebook): shallow embedding

    Factor values are exact rationals [Q]; a NumPy array of shape (k, d) is a
    [list (list Q)]; Python exceptions are the [Err] case of a small result
    monad. *)

From Stdlib Require Import ZArith QArith List Lia Permutation Bool.
From Stdlib Require Import Reals Qreals Sorted.
Import ListNotations.

Open Scope Z_scope.

(** ** Exceptions and the result monad *)

Inductive exn :=
| IndexError          (* index out of bounds in NumPy fancy indexing *)
| ValueError          (* operands could not be broadcast together *)
| ZeroDivisionError.  (* Python true division by zero *)

Inductive Result (A : Type) : Type :=
| Ok (a : A)
| Err (e : exn).
Arguments Ok {A} a.
Arguments Err {A} e.

Definition bind {A B} (r : Result A) (f : A -> Result B) : Result B :=
  match r with
  | Ok a => f a
  | Err e => Err e
  end.

Notation "x <- r ;; f" := (bind r (fun x => f))
  (at level 61, r at next level, right associativity).
Notation "' p <- r ;; f" := (bind r (fun x => match x with p => f end))
  (at level 61, p pattern, r at next level, right associativity).

(** ** Data model *)

Definition row := list Q.
Definition matrix := list row.

(** A row of [data.train_ratings[['user', 'item', 'rating']]]. *)
Record Rating := mkRating { user : Z; item : Z; rating : Q }.

(** ** NumPy indexing *)

(** Resolution of one integer index against an axis of length [rows]:
    negative indices count from the end, anything else out of range is an
    [IndexError]. *)
Definition np_index (rows : nat) (i : Z) : option nat :=
  if (0 <=? i) && (i <? Z.of_nat rows) then Some (Z.to_nat i)
  else if (- Z.of_nat rows <=? i) && (i <? 0) then Some (Z.to_nat (Z.of_nat rows + i))
  else None.

(** NumPy resolves a whole index array before touching any data. *)
Fixpoint resolve (rows : nat) (idx : list Z) : Result (list nat) :=
  match idx with
  | [] => Ok []
  | i :: idx' =>
      match np_index rows i with
      | None => Err IndexError
      | Some k => ks <- resolve rows idx' ;; Ok (k :: ks)
      end
  end.

Definition take_rows (M : matrix) (ks : list nat) : matrix :=
  map (fun k => nth k M []) ks.

(** [M[idx]]: a copy of the selected rows, duplicates included. *)
Definition gather (M : matrix) (idx : list Z) : Result matrix :=
  ks <- resolve (length M) idx ;; Ok (take_rows M ks).

Fixpoint list_set {A} (k : nat) (x : A) (l : list A) : list A :=
  match l, k with
  | [], _ => []
  | _ :: l', O => x :: l'
  | y :: l', S k' => y :: list_set k' x l'
  end.

(** [M[idx] = V] after resolution: rows are written one after the other,
    so for a repeated index the last value written stays. *)
Fixpoint set_rows (M : matrix) (ks : list nat) (V : matrix) : matrix :=
  match ks, V with
  | k :: ks', v :: V' => set_rows (list_set k v M) ks' V'
  | _, _ => M
  end.

(** Elementwise binary operations on arrays of equal shape (the in-place
    update and the dot product; [get_mse] below broadcasts). *)
Fixpoint vzip (f : Q -> Q -> Q) (a b : row) : Result row :=
  match a, b with
  | [], [] => Ok []
  | x :: a', y :: b' => r <- vzip f a' b' ;; Ok (f x y :: r)
  | _, _ => Err ValueError
  end.

Fixpoint mzip (f : Q -> Q -> Q) (A B : matrix) : Result matrix :=
  match A, B with
  | [], [] => Ok []
  | a :: A', b :: B' => r <- vzip f a b ;; R <- mzip f A' B' ;; Ok (r :: R)
  | _, _ => Err ValueError
  end.

(** [c * A] for a scalar [c]. *)
Definition scale (c : Q) (A : matrix) : matrix := map (map (Qmult c)) A.

(** [M[idx] -= D]: Python runs [tmp = M[idx]; tmp -= D; M[idx] = tmp]. *)
Definition isub_fancy (M : matrix) (idx : list Z) (D : matrix) : Result matrix :=
  ks <- resolve (length M) idx ;;
  tmp <- mzip Qminus (take_rows M ks) D ;;
  Ok (set_rows M ks tmp).

(** ** Rating prediction error *)

Fixpoint sumQ (l : list Q) : Q :=
  match l with
  | [] => 0%Q
  | x :: l' => (x + sumQ l')%Q
  end.

(** [np.mean]: NaN (here [None]) on an empty array. *)
Definition np_mean (l : list Q) : option Q :=
  match l with
  | [] => None
  | _ => Some (sumQ l / inject_Z (Z.of_nat (length l)))%Q
  end.

Fixpoint mapR {A B} (f : A -> Result B) (l : list A) : Result (list B) :=
  match l with
  | [] => Ok []
  | x :: l' => y <- f x ;; ys <- mapR f l' ;; Ok (y :: ys)
  end.

(** NumPy broadcasting of one axis: equal lengths, or one of them is 1 and
    is stretched to the other; anything else raises [ValueError]. *)
Definition bcast_len (a b : nat) : option nat :=
  if Nat.eqb a b then Some a
  else if Nat.eqb a 1 then Some b
  else if Nat.eqb b 1 then Some a
  else None.

(** Entry [i] of an axis after broadcasting: an axis of length 1 gives its
    only entry at every position. *)
Definition bget {A} (l : list A) (d : A) (i : nat) : A :=
  nth (if Nat.eqb (length l) 1 then 0%nat else i) l d.

(** [a OP b] on 1-d arrays, with broadcasting. *)
Definition vbcast (f : Q -> Q -> Q) (a b : row) : Result row :=
  match bcast_len (length a) (length b) with
  | Some n => Ok (map (fun i => f (bget a 0%Q i) (bget b 0%Q i)) (seq 0 n))
  | None => Err ValueError
  end.

(** [A OP B] on 2-d arrays, with broadcasting on both axes.  An array with
    no rows carries no width in this representation; the notebook only
    builds rectangular arrays of width [d]. *)
Definition mbcast (f : Q -> Q -> Q) (A B : matrix) : Result matrix :=
  match bcast_len (length A) (length B) with
  | Some n => mapR (fun i => vbcast f (bget A [] i) (bget B [] i)) (seq 0 n)
  | None => Err ValueError
  end.

(** The body of [get_rmse] up to the final [np.sqrt]: the mean squared
    error.  [get_rmse] below is its square root.  [u * v] and
    [rating - pred] broadcast as NumPy does. *)
Definition get_mse (r : list Q) (u v : matrix) : Result (option Q) :=
  uv <- mbcast Qmult u v ;;
  let pred := map sumQ uv in
  err <- vbcast Qminus r pred ;;
  Ok (np_mean (map (fun e => e * e)%Q err)).

Definition get_rmse (r : list Q) (u v : matrix) : Result (option R) :=
  m <- get_mse r u v ;;
  Ok (option_map (fun q => sqrt (Q2R q)) m).

(** ** Training *)

Record state := mkState {
  user_factors : matrix;
  item_factors : matrix;
  rmse_trace : list (option Q);       (* mean squared errors; RMSE = sqrt *)
  rmse_test_trace : list (option Q)
}.

Definition user_idx (mb : list Rating) : list Z := map (fun r => user r - 1) mb.
Definition item_idx (mb : list Rating) : list Z := map (fun r => item r - 1) mb.
Definition ratings_of (mb : list Rating) : list Q := map rating mb.

(** [int(np.ceil(len(ratings) / batch_size))]. *)
Definition num_batches (len batch_size : nat) : Result nat :=
  if Nat.eqb batch_size 0 then Err ZeroDivisionError
  else Ok ((len + batch_size - 1) / batch_size)%nat.

(** [ratings.iloc[idx * batch_size:(idx + 1) * batch_size]]. *)
Definition minibatch (ratings : list Rating) (batch_size idx : nat) : list Rating :=
  firstn batch_size (skipn (idx * batch_size) ratings).

(** The two nested [for] loops: the (epoch, idx) pairs in execution order. *)
Definition schedule (epochs nb : nat) : list (nat * nat) :=
  flat_map (fun epoch => map (fun idx => (epoch, idx)) (seq 0 nb)) (seq 0 epochs).

Section Training.

(** [compute_gradients(ratings, u, v)]: the notebook leaves its body as an
    exercise, so training is stated for every gradient function. *)
Variable compute_gradients : list Q -> matrix -> matrix -> Result (matrix * matrix).

(** [np.random.seed(seed)] followed by [np.random.normal(0, 1, ...)]: the
    [k]-th standard normal draw after seeding with [seed]. *)
Variable normal : Z -> nat -> Q.

(** [DataFrame.sample(frac=1, random_state=seed)]. *)
Variable sample : Z -> list Rating -> list Rating.

(** Gather, gradients and the two in-place updates (lines 194-204).  Also
    returns the embeddings gathered before the update, which the monitoring
    block reuses. *)
Definition update (learning_rate : Q) (mb : list Rating) (st : state)
  : Result (matrix * matrix * matrix * matrix) :=
  user_embeds <- gather (user_factors st) (user_idx mb) ;;
  item_embeds <- gather (item_factors st) (item_idx mb) ;;
  '(user_grads, item_grads) <- compute_gradients (ratings_of mb) user_embeds item_embeds ;;
  uf <- isub_fancy (user_factors st) (user_idx mb) (scale learning_rate user_grads) ;;
  itf <- isub_fancy (item_factors st) (item_idx mb) (scale learning_rate item_grads) ;;
  Ok (uf, itf, user_embeds, item_embeds).

(** The monitoring block (lines 206-215), with the test matrices gathered
    exactly as written: the item factors are indexed by the test USER ids. *)
Definition monitor (test : list Rating) (mb : list Rating)
    (user_embeds item_embeds : matrix) (st : state) : Result state :=
  rmse <- get_mse (ratings_of mb) user_embeds item_embeds ;;
  tu <- gather (user_factors st) (user_idx test) ;;
  ti <- gather (item_factors st) (user_idx test) ;;
  rmse_test <- get_mse (ratings_of test) tu ti ;;
  Ok (mkState (user_factors st) (item_factors st)
              (rmse_trace st ++ [rmse]) (rmse_test_trace st ++ [rmse_test])).

(** One iteration of the inner loop. *)
Definition step (learning_rate : Q) (test : list Rating) (idx : nat)
    (mb : list Rating) (st : state) : Result state :=
  '(uf, itf, user_embeds, item_embeds) <- update learning_rate mb st ;;
  let st' := mkState uf itf (rmse_trace st) (rmse_test_trace st) in
  if Nat.eqb (idx mod 300) 0 then monitor test mb user_embeds item_embeds st'
  else Ok st'.

Definition train_loop (learning_rate : Q) (batch_size : nat) (test ratings : list Rating)
    (sched : list (nat * nat)) (st0 : state) : Result state :=
  fold_left (fun acc '(epoch, idx) =>
               st <- acc ;; step learning_rate test idx (minibatch ratings batch_size idx) st)
            sched (Ok st0).

(** [np.random.normal(0, 1, (rows, d))], filled row-major from the stream
    starting at draw number [offset]. *)
Definition draw_matrix (seed : Z) (offset rows d : nat) : matrix :=
  map (fun i => map (fun j => normal seed (offset + i * d + j)%nat) (seq 0 d)) (seq 0 rows).

Definition init (seed : Z) (m n d : nat) : matrix * matrix :=
  (draw_matrix seed 0 m d, draw_matrix seed (m * d) n d).

(** The shuffled training ratings (line 113). *)
Definition shuffled (seed : Z) (train : list Rating) : list Rating := sample seed train.

(** The whole training cell sequence: initialisation, shuffle, loops. *)
Definition fit (seed : Z) (m n d epochs batch_size : nat) (learning_rate : Q)
    (train test : list Rating) : Result state :=
  let '(uf, itf) := init seed m n d in
  let ratings := shuffled seed train in
  nb <- num_batches (length ratings) batch_size ;;
  train_loop learning_rate batch_size test ratings (schedule epochs nb) (mkState uf itf [] []).

(** The batches consumed during epoch [e], in order. *)
Definition epoch_batches (seed : Z) (epochs batch_size : nat) (train : list Rating) (e : nat)
  : Result (list (list Rating)) :=
  let ratings := shuffled seed train in
  nb <- num_batches (length ratings) batch_size ;;
  Ok (map (fun '(_, idx) => minibatch ratings batch_size idx)
          (filter (fun p => Nat.eqb (fst p) e) (schedule epochs nb))).

End Training.

(** Modelled from the spec: [compute_gradients] (left as an exercise in the
    notebook), per section 4.2: prediction [dot(u, v)], error
    [rating - prediction], user gradient [-2 * error * v] and item gradient
    [-2 * error * u], one row per batch entry. *)
Definition compute_gradients_spec (r : list Q) (u v : matrix) : Result (matrix * matrix) :=
  uv <- mzip Qmult u v ;;
  err <- vzip Qminus r (map sumQ uv) ;;
  Ok (map (fun '(e, vr) => map (fun x => -2 * e * x)%Q vr) (combine err v),
      map (fun '(e, ur) => map (fun x => -2 * e * x)%Q ur) (combine err u)).

(** ** Recommendations *)

(** [np.dot] of two vectors. *)
Definition dot (a b : row) : Result Q :=
  p <- vzip Qmult a b ;; Ok (sumQ p).

(** Ranking order of (item, score) pairs: descending score, ties by
    ascending item id. *)
Definition ranks_before (a b : Z * Q) : bool :=
  Qle_bool (snd b) (snd a) && (negb (Qeq_bool (snd a) (snd b)) || (fst a <=? fst b)).

Fixpoint insert_pred (p : Z * Q) (l : list (Z * Q)) : list (Z * Q) :=
  match l with
  | [] => [p]
  | q :: l' => if ranks_before p q then p :: l else q :: insert_pred p l'
  end.

Fixpoint sort_preds (l : list (Z * Q)) : list (Z * Q) :=
  match l with
  | [] => []
  | p :: l' => insert_pred p (sort_preds l')
  end.

Definition is_known (known_positives : list Z) (i : Z) : bool :=
  existsb (Z.eqb i) known_positives.

(** Modelled from the spec: [get_prediction] (left as an exercise in the
    notebook), per section 4.4: the score of every item [1..n] is the dot
    product of the user's and the item's factor rows; with
    [remove_known_pos] the user's known positives are dropped; the result is
    ordered by descending score, ties by ascending item id, which is the
    iteration order [get_recommendations] relies on. *)
Definition get_prediction (uf itf : matrix) (known_positives : list Z) (u : Z)
    (remove_known_pos : bool) : Result (list (Z * Q)) :=
  urows <- gather uf [u - 1] ;;
  let urow := nth 0 urows [] in
  scores <- mapR (fun i => s <- dot urow (nth (Z.to_nat (i - 1)) itf []) ;; Ok (i, s))
                 (map Z.of_nat (seq 1 (length itf))) ;;
  let cands := if remove_known_pos
               then filter (fun p => negb (is_known known_positives (fst p))) scores
               else scores in
  Ok (sort_preds cands).

(** The loop of [get_recommendations]: append, then stop once the list has
    exactly [N] entries. *)
Fixpoint collect (N : Z) (preds recommendations : list (Z * Q)) : list (Z * Q) :=
  match preds with
  | [] => recommendations
  | p :: ps =>
      let recs := recommendations ++ [p] in
      if Z.of_nat (length recs) =? N then recs else collect N ps recs
  end.

Definition get_recommendations (uf itf : matrix) (known_positives : list Z) (u N : Z)
    (remove_known_pos : bool) : Result (list (Z * Q)) :=
  predictions <- get_prediction uf itf known_positives u remove_known_pos ;;
  Ok (collect N predictions []).

(** ** Evaluation *)

Fixpoint insert_Z (x : Z) (l : list Z) : list Z :=
  match l with
  | [] => [x]
  | y :: l' => if x <=? y then x :: l else y :: insert_Z x l'
  end.

Fixpoint sort_Z (l : list Z) : list Z :=
  match l with
  | [] => []
  | x :: l' => insert_Z x (sort_Z l')
  end.

(** [np.intersect1d(a, b)]: the sorted distinct values found in both. *)
Definition intersect1d (a b : list Z) : list Z :=
  sort_Z (nodup Z.eq_dec (filter (fun x => existsb (Z.eqb x) b) a)).

(** Python [a / b] on integers. *)
Definition py_div (a b : Z) : Result Q :=
  if b =? 0 then Err ZeroDivisionError else Ok (inject_Z a / inject_Z b)%Q.

(** [len(np.intersect1d(recommendations, relevant_items[user])) / N]. *)
Definition precision_at_N (recommendations relevant : list Z) (N : Z) : Result Q :=
  py_div (Z.of_nat (length (intersect1d recommendations relevant))) N.

(** [d[k] = v] on a dict as an association list with distinct keys: update
    in place, or append at the end. *)
Fixpoint dict_set {V} (k : Z) (v : V) (d : list (Z * V)) : list (Z * V) :=
  match d with
  | [] => [(k, v)]
  | (k', v') :: d' => if k' =? k then (k, v) :: d' else (k', v') :: dict_set k v d'
  end.

(** [dict.fromkeys(keys)]. *)
Definition fromkeys {V} (keys : list Z) : list (Z * option V) :=
  fold_left (fun d k => dict_set k None d) keys [].

(** Precision of one user of [relevant_items] (lines 385-389). *)
Definition user_precision (uf itf : matrix) (known : Z -> list Z) (N : Z)
    (u : Z) (relevant : list Z) : Result Q :=
  recs <- get_recommendations uf itf (known u) u N true ;;
  precision_at_N (map fst recs) relevant N.

Definition user_prec_pair (uf itf : matrix) (known : Z -> list Z) (N : Z)
    (ur : Z * list Z) : Result Q :=
  user_precision uf itf known N (fst ur) (snd ur).

(** One iteration of [for user in users]: [prec_at_N[user] = ...]. *)
Definition eval_step (uf itf : matrix) (known : Z -> list Z) (N : Z)
    (acc : Result (list (Z * option Q))) (ur : Z * list Z) : Result (list (Z * option Q)) :=
  d <- acc ;; p <- user_prec_pair uf itf known N ur ;; Ok (dict_set (fst ur) (Some p) d).

(** The evaluation cell (lines 381-389): [prec_at_N] after the loop, where
    [users = relevant_items.keys()]. *)
Definition eval_prec (uf itf : matrix) (known : Z -> list Z) (all_users : list Z)
    (relevant_items : list (Z * list Z)) (N : Z) : Result (list (Z * option Q)) :=
  fold_left (eval_step uf itf known N) relevant_items (Ok (fromkeys all_users)).

Definition somes (d : list (Z * option Q)) : list Q :=
  flat_map (fun '(_, v) => match v with Some p => [p] | None => [] end) d.

(** [np.mean([val for val in prec_at_N.values() if val is not None])]. *)
Definition mean_precision (d : list (Z * option Q)) : option Q := np_mean (somes d).

(** ** Relevant items and positive ratings (Unit 2 notebook) *)

(** The items of user [u] in [test_ratings], in the order of the frame. *)
Definition items_of_user (test : list Rating) (u : Z) : list Z :=
  map item (filter (fun r => user r =? u) test).

(** [get_relevant_items(test_ratings)]: [groupby('user')] visits its groups
    in ascending key order, and [get_group(user)['item'].values] keeps the
    frame order inside a group. *)
Definition get_relevant_items (test : list Rating) : list (Z * list Z) :=
  map (fun u => (u, items_of_user test u)) (sort_Z (nodup Z.eq_dec (map user test))).

(** [user_mean_ratings]: the [groupby('user')] mean of the ratings. *)
Definition user_mean_rating (train : list Rating) (u : Z) : option Q :=
  np_mean (map rating (filter (fun r => user r =? u) train)).

(** [keep_ratings] on the left merge with [user_mean_ratings]; a missing
    mean would be NaN, and a comparison with NaN is [False]. *)
Definition keep_rating (train : list Rating) (r : Rating) : bool :=
  match user_mean_rating train (user r) with
  | Some m => Qle_bool m (rating r)
  | None => false
  end.

(** [positive_train_ratings[keep_ratings]]. *)
Definition positive_train_ratings (train : list Rating) : list Rating :=
  filter (keep_rating train) train.

(** [ratings.item.value_counts()] looked up at one item. *)
Definition count_item (rs : list Rating) (i : Z) : nat :=
  length (filter (fun r => item r =? i) rs).

(** The index of [ratings.item.value_counts()] as a set of item ids (its
    order plays no part where it is used below: [np.intersect1d] sorts). *)
Definition popularity_index (rs : list Rating) : list Z :=
  nodup Z.eq_dec (map item rs).

(** [joint_counts]: for each item of both popularity indexes, its count in
    all training ratings and in the positive ones. *)
Definition joint_counts (train : list Rating) : list (nat * nat) :=
  let pos := positive_train_ratings train in
  map (fun i => (count_item train i, count_item pos i))
      (intersect1d (popularity_index pos) (popularity_index train)).

(** [ratings.item.value_counts()]: one (item, count) pair per distinct
    item, put in descending count order by [sort_counts]; pandas leaves the
    order of equal counts open, so the sort is a parameter. *)
Definition value_counts (sort_counts : list (Z * nat) -> list (Z * nat)) (rs : list Rating)
  : list (Z * nat) :=
  sort_counts (map (fun i => (i, count_item rs i)) (popularity_index rs)).

(** [item_order = item_popularity.values]: the values of the series. *)
Definition item_order sort_counts (train : list Rating) : list nat :=
  map snd (value_counts sort_counts train).

(** [top_movie_ids = item_order[:5]]. *)
Definition top_movie_ids sort_counts (train : list Rating) : list nat :=
  firstn 5 (item_order sort_counts train).

(** ** Generic facts about the embedding *)

(** Entrywise equality of factor matrices. *)
Definition meq (A B : matrix) : Prop := Forall2 (Forall2 Qeq) A B.

Lemma bind_ok {A B} (r : Result A) (f : A -> Result B) b :
  bind r f = Ok b -> exists a, r = Ok a /\ f a = Ok b.
Proof. destruct r; simpl; [eauto | discriminate]. Qed.

Ltac unbind H :=
  repeat (apply bind_ok in H;
          let a := fresh "a" in let Ha := fresh "Hr" in
          destruct H as (a & Ha & H); cbv beta in H).

Lemma resolve_in rows idx ks :
  resolve rows idx = Ok ks -> forall k, In k ks -> exists i, In i idx /\ np_index rows i = Some k.
Proof.
  revert ks; induction idx as [|i idx IH]; simpl; intros ks H k Hk.
  - injection H as <-; destruct Hk.
  - destruct (np_index rows i) as [k'|] eqn:E; [|discriminate].
    unbind H; injection H as <-.
    destruct Hk as [<-|Hk]; [eauto|].
    destruct (IH _ Hr k Hk) as (j & Hj & Ej); eauto.
Qed.


Lemma list_set_length {A} k (x : A) l : length (list_set k x l) = length l.
Proof. revert k; induction l; intros [|k]; simpl; auto. Qed.

Lemma list_set_other {A} k (x : A) l r :
  r <> k -> nth_error (list_set k x l) r = nth_error l r.
Proof.
  revert k r; induction l as [|y l IH]; intros [|k] [|r] Hne; simpl; auto;
    try congruence; apply IH; congruence.
Qed.

Lemma set_rows_length M ks V : length (set_rows M ks V) = length M.
Proof.
  revert M V; induction ks as [|k ks IH]; intros M [|v V]; simpl; auto.
  rewrite IH; apply list_set_length.
Qed.

Lemma set_rows_other M ks V r :
  ~ In r ks -> nth_error (set_rows M ks V) r = nth_error M r.
Proof.
  revert M V; induction ks as [|k ks IH]; intros M [|v V] Hr; simpl; auto.
  rewrite IH by (simpl in Hr; tauto).
  apply list_set_other; intros ->; apply Hr; now left.
Qed.

(** An in-place [M[idx] -= D] leaves every row that no index resolves to. *)
Lemma isub_fancy_frame M idx D M' :
  isub_fancy M idx D = Ok M' ->
  length M' = length M /\
  forall r, (forall i, In i idx -> np_index (length M) i <> Some r) ->
            nth_error M' r = nth_error M r.
Proof.
  unfold isub_fancy; intro H; unbind H; injection H as <-.
  split; [apply set_rows_length|].
  intros r Hout; apply set_rows_other; intro Hin.
  destruct (resolve_in _ _ _ Hr r Hin) as (i & Hi & Ei).
  exact (Hout i Hi Ei).
Qed.

Lemma monitor_factors test mb ue ie st st' :
  monitor test mb ue ie st = Ok st' ->
  user_factors st' = user_factors st /\ item_factors st' = item_factors st.
Proof. unfold monitor; intro H; unbind H; injection H as <-; simpl; auto. Qed.

Lemma step_ok_inv cg lr test idx mb st st' :
  step cg lr test idx mb st = Ok st' ->
  exists ue ie, update cg lr mb st = Ok (user_factors st', item_factors st', ue, ie).
Proof.
  unfold step; intro H; unbind H.
  destruct a as [[[uf itf] ue] ie].
  destruct (Nat.eqb (idx mod 300) 0).
  - apply monitor_factors in H; simpl in H; destruct H as [-> ->]; eauto.
  - injection H as <-; simpl; eauto.
Qed.

Lemma update_frame cg lr mb st uf itf ue ie :
  update cg lr mb st = Ok (uf, itf, ue, ie) ->
  (exists D, isub_fancy (user_factors st) (user_idx mb) D = Ok uf) /\
  (exists D, isub_fancy (item_factors st) (item_idx mb) D = Ok itf).
Proof.
  unfold update; intro H; unbind H.
  destruct a1 as [ug ig]; unbind H.
  injection H as <- <- _ _; eauto.
Qed.

(** ** C10: frame of one minibatch step *)

(** C10: a successful training step keeps the number of rows of both factor
    matrices, changes no user row that no [user id - 1] of the batch
    resolves to and no item row that no [item id - 1] resolves to, and the
    monitoring block leaves both factor matrices exactly as it found them. *)
Theorem step_frame cg lr test idx mb st st' :
  step cg lr test idx mb st = Ok st' ->
  length (user_factors st') = length (user_factors st) /\
  length (item_factors st') = length (item_factors st) /\
  (forall r, (forall x, In x mb -> np_index (length (user_factors st)) (user x - 1) <> Some r) ->
             nth_error (user_factors st') r = nth_error (user_factors st) r) /\
  (forall r, (forall x, In x mb -> np_index (length (item_factors st)) (item x - 1) <> Some r) ->
             nth_error (item_factors st') r = nth_error (item_factors st) r) /\
  (forall ue ie st1 st2, monitor test mb ue ie st1 = Ok st2 ->
             user_factors st2 = user_factors st1 /\ item_factors st2 = item_factors st1).
Proof.
  intro H; apply step_ok_inv in H; destruct H as (ue & ie & H).
  apply update_frame in H; destruct H as [[Du Hu] [Di Hi]].
  apply isub_fancy_frame in Hu; apply isub_fancy_frame in Hi.
  destruct Hu as [Lu Fu]; destruct Hi as [Li Fi].
  split; [exact Lu|]; split; [exact Li|]; split; [|split].
  - intros r Hr; apply Fu; unfold user_idx; intros i Hin.
    apply in_map_iff in Hin; destruct Hin as (x & <- & Hx); auto.
  - intros r Hr; apply Fi; unfold item_idx; intros i Hin.
    apply in_map_iff in Hin; destruct Hin as (x & <- & Hx); auto.
  - intros; eapply monitor_factors; eauto.
Qed.

Definition frame_st0 : state := mkState [[1%Q]; [5%Q]] [[1%Q]; [2%Q]] [] [].
Definition frame_mb : list Rating := [mkRating 1 1 3].

Lemma step_frame_witness :
  exists st', step compute_gradients_spec (1#10) [] 0 frame_mb frame_st0 = Ok st' /\
              nth_error (user_factors st') 1 = Some [5%Q] /\
              nth_error (item_factors st') 1 = Some [2%Q].
Proof.
  destruct (step compute_gradients_spec (1#10) [] 0 frame_mb frame_st0) as [st'|e] eqn:E;
    [|vm_compute in E; discriminate].
  exists st'; split; [reflexivity|].
  destruct (step_frame _ _ _ _ _ _ _ E) as (_ & _ & Fu & Fi & _).
  split; [rewrite (Fu 1%nat) | rewrite (Fi 1%nat)];
    try reflexivity; simpl; intros x [<-|[]]; vm_compute; discriminate.
Defined.

(** ** Running the loop *)

Lemma train_loop_nil cg lr bs test ratings st0 :
  train_loop cg lr bs test ratings [] st0 = Ok st0.
Proof. reflexivity. Qed.

Lemma fold_left_absorb {A B} (f : A -> B -> A) z l :
  (forall b, f z b = z) -> fold_left f l z = z.
Proof. intros H; induction l; simpl; [|rewrite H]; auto. Qed.

Lemma train_loop_cons cg lr bs test ratings epoch idx sched st0 :
  train_loop cg lr bs test ratings ((epoch, idx) :: sched) st0 =
  st <- step cg lr test idx (minibatch ratings bs idx) st0 ;;
  train_loop cg lr bs test ratings sched st.
Proof.
  unfold train_loop; simpl.
  destruct (step cg lr test idx (minibatch ratings bs idx) st0); simpl; auto.
  apply fold_left_absorb; intros [? ?]; reflexivity.
Qed.

(** Any property of the two factor matrices that every successful step
    preserves holds at the end of a successful loop. *)
Lemma train_loop_preserves (P : matrix -> matrix -> Prop) cg lr bs test ratings :
  (forall idx mb st st', step cg lr test idx mb st = Ok st' ->
     P (user_factors st) (item_factors st) -> P (user_factors st') (item_factors st')) ->
  forall sched st0 st, train_loop cg lr bs test ratings sched st0 = Ok st ->
  P (user_factors st0) (item_factors st0) -> P (user_factors st) (item_factors st).
Proof.
  intros Hstep; induction sched as [|[epoch idx] sched IH]; intros st0 st H HP.
  - injection H as <-; exact HP.
  - rewrite train_loop_cons in H; unbind H; eauto.
Qed.

(** ** C8: learning rate zero *)

Lemma meq_row_refl (a : row) : Forall2 Qeq a a.
Proof. induction a; constructor; auto; reflexivity. Qed.

Lemma meq_refl A : meq A A.
Proof. induction A; constructor; auto using meq_row_refl. Qed.

Lemma meq_row_trans (a b c : row) : Forall2 Qeq a b -> Forall2 Qeq b c -> Forall2 Qeq a c.
Proof.
  intros H; revert c; induction H; intros c H'; inversion H'; subst; constructor; auto.
  transitivity y; auto.
Qed.

Lemma meq_trans A B C : meq A B -> meq B C -> meq A C.
Proof.
  intros H; revert C; induction H; intros C H'; inversion H'; subst; constructor.
  - eapply meq_row_trans; eauto.
  - apply IHForall2; exact H5.
Qed.

Lemma vzip_sub_zero (a g : row) t :
  vzip Qminus a (map (Qmult 0) g) = Ok t -> Forall2 Qeq t a.
Proof.
  revert g t; induction a as [|x a IH]; intros [|y g] t H; simpl in H; try discriminate.
  - injection H as <-; constructor.
  - unbind H; injection H as <-; constructor; [ring | eauto].
Qed.

Lemma mzip_sub_zero (A G : matrix) T :
  mzip Qminus A (scale 0 G) = Ok T -> meq T A.
Proof.
  unfold scale; revert G T; induction A as [|a A IH]; intros [|g G] T H; simpl in H;
    try discriminate.
  - injection H as <-; constructor.
  - unbind H; injection H as <-; constructor.
    + eapply vzip_sub_zero; eauto.
    + eapply IH; eauto.
Qed.

Lemma list_set_meq cur M k v :
  meq cur M -> Forall2 Qeq v (nth k M []) -> meq (list_set k v cur) M.
Proof.
  intros H; revert k; induction H as [|a b cur M Hab H IH]; intros [|k] Hv; simpl in *;
    constructor; auto.
  apply IH; exact Hv.
Qed.

Lemma set_rows_meq cur M ks V :
  meq cur M -> meq V (take_rows M ks) -> meq (set_rows cur ks V) M.
Proof.
  revert cur V; induction ks as [|k ks IH]; intros cur [|v V] Hc HV; simpl; auto.
  inversion HV; subst; apply IH; auto using list_set_meq.
Qed.

Lemma isub_fancy_zero M idx G M' :
  isub_fancy M idx (scale 0 G) = Ok M' -> meq M' M.
Proof.
  unfold isub_fancy; intro H; unbind H; injection H as <-.
  apply set_rows_meq; [apply meq_refl | eauto using mzip_sub_zero].
Qed.

Lemma step_zero cg test idx mb st st' :
  step cg 0 test idx mb st = Ok st' ->
  meq (user_factors st') (user_factors st) /\ meq (item_factors st') (item_factors st).
Proof.
  intro H; apply step_ok_inv in H; destruct H as (ue & ie & H).
  unfold update in H; unbind H; destruct a1 as [ug ig]; unbind H.
  injection H as Eu Ei _ _; rewrite <- Eu, <- Ei.
  split; eapply isub_fancy_zero; eauto.
Qed.

(** C8: with [learning_rate = 0], a training run that completes, for any
    number of epochs and any gradient function, leaves every entry of both
    factor matrices equal to its initial value. *)
Theorem fit_zero_learning_rate cg normal sample seed m n d epochs bs train test st :
  fit cg normal sample seed m n d epochs bs 0 train test = Ok st ->
  meq (user_factors st) (fst (init normal seed m n d)) /\
  meq (item_factors st) (snd (init normal seed m n d)).
Proof.
  unfold fit; simpl; intro H; unbind H.
  refine (train_loop_preserves
            (fun U I => meq U (draw_matrix normal seed 0 m d) /\
                        meq I (draw_matrix normal seed (m * d) n d))
            cg 0 bs test (shuffled sample seed train) _ _ _ _ H _).
  - intros idx mb s s' Hs [HU HI]; apply step_zero in Hs; destruct Hs.
    split; eapply meq_trans; eauto.
  - simpl; split; apply meq_refl.
Qed.

(** A small concrete run: one user, two items, [d = 1], the spec's
    gradients, a stand-in RNG stream and a stand-in shuffle. *)
Definition demo_normal (seed : Z) (k : nat) : Q := inject_Z (Z.of_nat k + 1).
Definition demo_sample (seed : Z) (l : list Rating) : list Rating := rev l.
Definition demo_train : list Rating := [mkRating 1 1 3; mkRating 1 2 4].

Lemma fit_zero_learning_rate_witness :
  exists st, fit compute_gradients_spec demo_normal demo_sample 0 1 2 1 2 1 0 demo_train [] = Ok st /\
             meq (user_factors st) (fst (init demo_normal 0 1 2 1)) /\
             meq (item_factors st) (snd (init demo_normal 0 1 2 1)).
Proof.
  destruct (fit compute_gradients_spec demo_normal demo_sample 0 1 2 1 2 1 0 demo_train [])
    as [st|e] eqn:E; [|vm_compute in E; discriminate].
  exists st; split; [reflexivity|].
  exact (fit_zero_learning_rate _ _ _ _ _ _ _ _ _ _ _ _ E).
Defined.

(** ** C9: determinism *)

Lemma update_factors_only cg lr mb st1 st2 :
  user_factors st1 = user_factors st2 -> item_factors st1 = item_factors st2 ->
  update cg lr mb st1 = update cg lr mb st2.
Proof. intros Eu Ei; unfold update; rewrite Eu, Ei; reflexivity. Qed.

Lemma train_loop_same_factors cg lr bs test1 test2 ratings sched :
  forall st1 st2 r1 r2,
  user_factors st1 = user_factors st2 -> item_factors st1 = item_factors st2 ->
  train_loop cg lr bs test1 ratings sched st1 = Ok r1 ->
  train_loop cg lr bs test2 ratings sched st2 = Ok r2 ->
  user_factors r1 = user_factors r2 /\ item_factors r1 = item_factors r2.
Proof.
  induction sched as [|[epoch idx] sched IH]; intros st1 st2 r1 r2 Eu Ei H1 H2.
  - injection H1 as <-; injection H2 as <-; auto.
  - rewrite train_loop_cons in H1, H2; unbind H1; unbind H2.
    apply (IH a a0); auto.
    + apply step_ok_inv in Hr, Hr0.
      destruct Hr as (ue1 & ie1 & U1); destruct Hr0 as (ue2 & ie2 & U2).
      rewrite (update_factors_only cg lr _ st1 st2 Eu Ei), U2 in U1.
      congruence.
    + apply step_ok_inv in Hr, Hr0.
      destruct Hr as (ue1 & ie1 & U1); destruct Hr0 as (ue2 & ie2 & U2).
      rewrite (update_factors_only cg lr _ st1 st2 Eu Ei), U2 in U1.
      congruence.
Qed.

(** C9: two completed runs of [fit] with the same training ratings, sizes,
    [d], epochs, batch size, learning rate and seed end with identical user
    and item factor matrices (whatever held-out set the monitoring used), so
    every recommendation list computed from them is identical too. *)
Theorem fit_deterministic cg normal sample seed m n d epochs bs lr train test1 test2 st1 st2 :
  fit cg normal sample seed m n d epochs bs lr train test1 = Ok st1 ->
  fit cg normal sample seed m n d epochs bs lr train test2 = Ok st2 ->
  user_factors st1 = user_factors st2 /\ item_factors st1 = item_factors st2 /\
  (forall known u N remove_known_pos,
     get_recommendations (user_factors st1) (item_factors st1) known u N remove_known_pos =
     get_recommendations (user_factors st2) (item_factors st2) known u N remove_known_pos).
Proof.
  unfold fit; simpl; intros H1 H2; unbind H1; unbind H2.
  rewrite Hr in Hr0; injection Hr0 as <-.
  destruct (train_loop_same_factors _ _ _ _ _ _ _ _ _ _ _ eq_refl eq_refl H1 H2) as [Eu Ei].
  rewrite Eu, Ei; auto.
Qed.

Lemma fit_deterministic_witness :
  exists st1 st2,
    fit compute_gradients_spec demo_normal demo_sample 0 1 2 1 2 1 (1#10) demo_train [] = Ok st1 /\
    fit compute_gradients_spec demo_normal demo_sample 0 1 2 1 2 1 (1#10) demo_train
        [mkRating 1 1 5] = Ok st2 /\
    user_factors st1 = user_factors st2 /\ item_factors st1 = item_factors st2.
Proof.
  destruct (fit compute_gradients_spec demo_normal demo_sample 0 1 2 1 2 1 (1#10) demo_train [])
    as [st1|e] eqn:E1; [|vm_compute in E1; discriminate].
  destruct (fit compute_gradients_spec demo_normal demo_sample 0 1 2 1 2 1 (1#10) demo_train
              [mkRating 1 1 5]) as [st2|e] eqn:E2; [|vm_compute in E2; discriminate].
  exists st1, st2; split; [reflexivity|]; split; [reflexivity|].
  destruct (fit_deterministic _ _ _ _ _ _ _ _ _ _ _ _ _ _ _ E1 E2) as (Eu & Ei & _); auto.
Defined.

(** ** C1: repeated ids in one batch *)

Definition vsub_total (a b : row) : row := map (fun '(x, y) => (x - y)%Q) (combine a b).

(** Reference for the accumulation contract of the spec (section 4.1,
    [scatterAdd] with the sign flipped): the per-instance deltas are
    applied one after the other, each to the row as the previous one left
    it. *)
Fixpoint scatter_sub_each (M : matrix) (ks : list nat) (D : matrix) : matrix :=
  match ks, D with
  | k :: ks', dl :: D' => scatter_sub_each (list_set k (vsub_total (nth k M []) dl) M) ks' D'
  | _, _ => M
  end.

(** [update] with the accumulation contract in place of [M[idx] -= D]. *)
Definition update_accumulate cg (learning_rate : Q) (mb : list Rating) (st : state)
  : Result (matrix * matrix) :=
  user_embeds <- gather (user_factors st) (user_idx mb) ;;
  item_embeds <- gather (item_factors st) (item_idx mb) ;;
  '(user_grads, item_grads) <- cg (ratings_of mb) user_embeds item_embeds ;;
  ku <- resolve (length (user_factors st)) (user_idx mb) ;;
  ki <- resolve (length (item_factors st)) (item_idx mb) ;;
  Ok (scatter_sub_each (user_factors st) ku (scale learning_rate user_grads),
      scatter_sub_each (item_factors st) ki (scale learning_rate item_grads)).

(** User 1 rates items 1 and 2 in the same batch. *)
Definition dup_st0 : state := mkState [[1%Q]] [[1%Q]; [2%Q]] [] [].
Definition dup_batch : list Rating := [mkRating 1 1 3; mkRating 1 2 4].

(** C1 (failing input): on a batch where user 1 occurs twice, the update
    of lines 203-204 leaves user 1's row at [1 + 0.8 = 1.8], the second
    delta only, while applying both deltas in sequence gives
    [1 + 0.4 + 0.8 = 2.2]. *)
Theorem update_repeated_user_keeps_last_delta :
  exists uf itf ue ie uf' itf',
    update compute_gradients_spec (1#10) dup_batch dup_st0 = Ok (uf, itf, ue, ie) /\
    update_accumulate compute_gradients_spec (1#10) dup_batch dup_st0 = Ok (uf', itf') /\
    meq uf [[9#5]] /\ meq uf' [[11#5]] /\ ~ meq uf uf'.
Proof.
  destruct (update compute_gradients_spec (1#10) dup_batch dup_st0)
    as [[[[uf itf] ue] ie]|e] eqn:E; [|vm_compute in E; discriminate].
  destruct (update_accumulate compute_gradients_spec (1#10) dup_batch dup_st0)
    as [[uf' itf']|e] eqn:E'; [|vm_compute in E'; discriminate].
  exists uf, itf, ue, ie, uf', itf'; split; [reflexivity|]; split; [reflexivity|].
  vm_compute in E, E'; injection E as <- _ _ _; injection E' as <- _.
  split; [repeat constructor; reflexivity|]; split; [repeat constructor; reflexivity|].
  intro H; inversion_clear H as [|a b l l' Hab _]; inversion_clear Hab as [|x y k k' Hxy _].
  vm_compute in Hxy; discriminate.
Qed.

(** ** C2: the held-out error during monitoring *)

(** The held-out error as the spec asks for it (section 9): item factor
    rows indexed by the test ratings' item ids. *)
Definition test_rmse_by_item (st : state) (test : list Rating) : Result (option R) :=
  tu <- gather (user_factors st) (user_idx test) ;;
  ti <- gather (item_factors st) (item_idx test) ;;
  get_rmse (ratings_of test) tu ti.

(** The held-out error as lines 210-212 compute it. *)
Definition test_rmse_as_written (st : state) (test : list Rating) : Result (option R) :=
  tu <- gather (user_factors st) (user_idx test) ;;
  ti <- gather (item_factors st) (user_idx test) ;;
  get_rmse (ratings_of test) tu ti.

(** Two users with equal rows, two items with different rows; user 1 rates
    item 2 with 1 in the held-out set. *)
Definition c2_st : state := mkState [[1%Q]; [1%Q]] [[0%Q]; [1%Q]] [] [].
Definition c2_test : list Rating := [mkRating 1 2 1].

Lemma Q2R_one_eq q : (q == 1)%Q -> Q2R q = 1%R.
Proof. intro H; rewrite (Qeq_eqR _ _ H); unfold Q2R; simpl; field. Qed.

Lemma Q2R_zero_eq q : (q == 0)%Q -> Q2R q = 0%R.
Proof. intro H; rewrite (Qeq_eqR _ _ H); unfold Q2R; simpl; field. Qed.

(** C2 (failing input): the monitoring block records for [c2_test] a
    held-out squared error of 1 (RMSE 1), computed with item row 0, the row
    of item id 1 = the test user's id; with item 2's own row the error is 0
    (RMSE 0). *)
Theorem monitor_test_error_uses_user_ids :
  exists st' q rw ri,
    monitor c2_test [] [] [] c2_st = Ok st' /\
    rmse_test_trace st' = [Some q] /\ (q == 1)%Q /\
    test_rmse_as_written c2_st c2_test = Ok (Some rw) /\
    test_rmse_by_item c2_st c2_test = Ok (Some ri) /\
    rw = 1%R /\ ri = 0%R.
Proof.
  destruct (monitor c2_test [] [] [] c2_st) as [st'|e] eqn:E; [|vm_compute in E; discriminate].
  vm_compute in E; injection E as <-.
  eexists _, _, _, _; split; [reflexivity|]; split; [reflexivity|]; split; [reflexivity|].
  split; [reflexivity|]; split; [reflexivity|]; split.
  - rewrite Q2R_one_eq by reflexivity; apply sqrt_1.
  - rewrite Q2R_zero_eq by reflexivity; apply sqrt_0.
Qed.

(** ** C3: batch order per epoch *)

Lemma filter_epoch e ep (l : list nat) :
  filter (fun p => Nat.eqb (fst p) e) (map (fun idx => (ep, idx)) l) =
  if Nat.eqb ep e then map (fun idx => (ep, idx)) l else [].
Proof.
  induction l as [|x l IHl].
  - destruct (Nat.eqb ep e); reflexivity.
  - simpl; rewrite IHl; destruct (Nat.eqb ep e); reflexivity.
Qed.

Lemma filter_schedule e nb start len :
  filter (fun p => Nat.eqb (fst p) e)
         (flat_map (fun epoch => map (fun idx => (epoch, idx)) (seq 0 nb)) (seq start len)) =
  if ((start <=? e) && (e <? start + len))%nat then map (fun idx => (e, idx)) (seq 0 nb) else [].
Proof.
  revert start; induction len as [|len IH]; intro start.
  - simpl; destruct (start <=? e)%nat eqn:E1, (e <? start + 0)%nat eqn:E2; simpl; auto.
    apply Nat.leb_le in E1; apply Nat.ltb_lt in E2; lia.
  - simpl; rewrite filter_app, IH.
    rewrite filter_epoch.
    destruct (Nat.eqb_spec start e) as [<-|Hne].
    + rewrite Nat.leb_refl, (proj2 (Nat.ltb_lt start (start + S len))) by lia.
      rewrite (proj2 (Nat.leb_gt (S start) start)) by lia; simpl; apply app_nil_r.
    + destruct (Nat.leb_spec start e), (Nat.leb_spec (S start) e),
               (Nat.ltb_spec e (start + S len)), (Nat.ltb_spec e (S start + len));
        simpl; auto; lia.
Qed.

(** C3 (amended): the training ratings are shuffled once, before the
    loops, by [sample] with [random_state=seed]; for every epoch [e] below
    [epochs] the batches consumed are the consecutive [batch_size] slices of
    that single shuffle, the same sequence in every epoch. *)
Theorem epoch_batches_same_each_epoch sample seed epochs bs train e :
  (e < epochs)%nat -> (0 < bs)%nat ->
  epoch_batches sample seed epochs bs train e =
  Ok (map (minibatch (shuffled sample seed train) bs)
          (seq 0 ((length (shuffled sample seed train) + bs - 1) / bs))).
Proof.
  intros He Hbs; unfold epoch_batches, num_batches.
  destruct (Nat.eqb_spec bs 0) as [->|_]; [lia|]; simpl.
  unfold schedule; rewrite filter_schedule.
  rewrite (proj2 (Nat.leb_le 0 e)), (proj2 (Nat.ltb_lt e (0 + epochs))) by lia; simpl.
  rewrite map_map; reflexivity.
Qed.

Lemma epoch_batches_same_each_epoch_witness :
  epoch_batches demo_sample 0 2 1 demo_train 1 =
  Ok [[mkRating 1 2 4]; [mkRating 1 1 3]].
Proof. rewrite (epoch_batches_same_each_epoch demo_sample 0 2 1 demo_train 1); [reflexivity | lia | lia]. Defined.

(** A seed-dependent stand-in for [DataFrame.sample(frac=1, random_state=s)]:
    rotation by [s]. *)
Definition rotate_sample (s : Z) (l : list Rating) : list Rating :=
  let k := (Z.to_nat s mod length l)%nat in skipn k l ++ firstn k l.

(** C3 (counterexample): with two ratings, batches of one and two epochs,
    epoch 1 consumes exactly the order of epoch 0, not the shuffle with
    seed [0 + 1]. *)
Lemma epoch_order_not_reshuffled :
  epoch_batches rotate_sample 0 2 1 demo_train 0 = epoch_batches rotate_sample 0 2 1 demo_train 1 /\
  epoch_batches rotate_sample 0 2 1 demo_train 1 <>
  Ok (map (minibatch (rotate_sample (0 + 1) demo_train) 1) (seq 0 2)).
Proof. split; [reflexivity | vm_compute; discriminate]. Qed.

(** ** C4: ids outside the matrices *)








(** ** C7: precision@N *)

Lemma insert_Z_perm x l : Permutation (insert_Z x l) (x :: l).
Proof.
  induction l as [|y l IH]; simpl; [auto|].
  destruct (x <=? y); [auto|].
  eapply perm_trans; [apply perm_skip, IH | apply perm_swap].
Qed.

Lemma sort_Z_perm l : Permutation (sort_Z l) l.
Proof.
  induction l as [|x l IH]; simpl; [auto|].
  eapply perm_trans; [apply insert_Z_perm | apply perm_skip, IH].
Qed.

Lemma nodup_length_le (l : list Z) : (length (nodup Z.eq_dec l) <= length l)%nat.
Proof. induction l as [|x l IH]; simpl; [auto|]; destruct (in_dec Z.eq_dec x l); simpl; lia. Qed.

Lemma filter_length_le' {A} (f : A -> bool) l : (length (filter f l) <= length l)%nat.
Proof. induction l as [|x l IH]; simpl; [auto|]; destruct (f x); simpl; lia. Qed.

Lemma filter_all {A} (f : A -> bool) l : (forall x, In x l -> f x = true) -> filter f l = l.
Proof.
  induction l as [|x l IH]; intro H; simpl; [auto|].
  rewrite (H x (or_introl eq_refl)), IH; auto; intros; apply H; right; auto.
Qed.

Lemma filter_none {A} (f : A -> bool) l : (forall x, In x l -> f x = false) -> filter f l = [].
Proof.
  induction l as [|x l IH]; intro H; simpl; [auto|].
  rewrite (H x (or_introl eq_refl)), IH; auto; intros; apply H; right; auto.
Qed.

Lemma in_existsb_eqb x l : existsb (Z.eqb x) l = true <-> In x l.
Proof.
  rewrite existsb_exists; split.
  - intros (y & Hy & E); apply Z.eqb_eq in E; subst; auto.
  - intro H; exists x; split; [auto | apply Z.eqb_refl].
Qed.

Lemma intersect1d_spec a b :
  (forall x, In x (intersect1d a b) <-> In x a /\ In x b) /\ NoDup (intersect1d a b).
Proof.
  unfold intersect1d; split.
  - intro x; split; intro H.
    + apply (Permutation_in _ (sort_Z_perm _)), nodup_In, filter_In in H.
      destruct H as [Ha Hb]; apply in_existsb_eqb in Hb; auto.
    + apply (Permutation_in _ (Permutation_sym (sort_Z_perm _))), nodup_In, filter_In.
      rewrite in_existsb_eqb; tauto.
  - eapply Permutation_NoDup; [apply Permutation_sym, sort_Z_perm | apply NoDup_nodup].
Qed.

Lemma intersect1d_length a b :
  length (intersect1d a b) = length (nodup Z.eq_dec (filter (fun x => existsb (Z.eqb x) b) a)).
Proof. unfold intersect1d; apply Permutation_length, sort_Z_perm. Qed.

(** C7: for [N > 0] and a recommendation list of at most [N] ids, the
    precision is [|recommendations ∩ relevant| / N] (the intersection being
    the set of common ids, without repetition), lies in [0, 1], is 0 when
    the two are disjoint, and is 1 when the list holds [N] distinct ids all
    relevant. *)
Theorem precision_at_N_bounds recs rel N :
  0 < N -> Z.of_nat (length recs) <= N ->
  exists p, precision_at_N recs rel N = Ok p /\
    (forall x, In x (intersect1d recs rel) <-> In x recs /\ In x rel) /\
    NoDup (intersect1d recs rel) /\
    (p == inject_Z (Z.of_nat (length (intersect1d recs rel))) / inject_Z N)%Q /\
    (0 <= p <= 1)%Q /\
    ((forall x, In x recs -> ~ In x rel) -> p == 0)%Q /\
    (NoDup recs -> Z.of_nat (length recs) = N -> (forall x, In x recs -> In x rel) -> p == 1)%Q.
Proof.
  intros HN Hlen.
  assert (HNq : (0 < inject_Z N)%Q) by (change 0%Q with (inject_Z 0); rewrite <- Zlt_Qlt; exact HN).
  assert (Hk : Z.of_nat (length (intersect1d recs rel)) <= N).
  { rewrite intersect1d_length.
    pose proof (nodup_length_le (filter (fun x => existsb (Z.eqb x) rel) recs)).
    pose proof (filter_length_le' (fun x => existsb (Z.eqb x) rel) recs); lia. }
  unfold precision_at_N, py_div.
  destruct (Z.eqb_spec N 0) as [E|_]; [lia|].
  eexists; split; [reflexivity|].
  destruct (intersect1d_spec recs rel) as [Hin Hnd].
  split; [exact Hin|]; split; [exact Hnd|]; split; [reflexivity|]; split; [split|split].
  - apply Qle_shift_div_l; [exact HNq|].
    rewrite Qmult_0_l; change 0%Q with (inject_Z 0); rewrite <- Zle_Qle; lia.
  - apply Qle_shift_div_r; [exact HNq|].
    rewrite Qmult_1_l; rewrite <- Zle_Qle; exact Hk.
  - intro Hdis; rewrite intersect1d_length, filter_none.
    + simpl; unfold Qdiv; apply Qmult_0_l.
    + intros x Hx; destruct (existsb (Z.eqb x) rel) eqn:E; auto.
      apply in_existsb_eqb in E; destruct (Hdis x Hx E).
  - intros Hnd' HlenN Hall; rewrite intersect1d_length, filter_all.
    + rewrite nodup_fixed_point by exact Hnd'; rewrite HlenN.
      apply Qmult_inv_r; intro H0; rewrite H0 in HNq; discriminate.
    + intros x Hx; apply in_existsb_eqb; auto.
Qed.

Lemma precision_at_N_bounds_witness :
  exists p, precision_at_N [1; 2] [2] 2 = Ok p /\ (0 <= p <= 1)%Q.
Proof.
  destruct (precision_at_N_bounds [1; 2] [2] 2) as (p & Hp & _ & _ & _ & Hb & _);
    [lia | simpl; lia |].
  exists p; auto.
Defined.

(** ** C6: recommendations without known positives *)

Lemma insert_pred_perm p l : Permutation (insert_pred p l) (p :: l).
Proof.
  induction l as [|q l IH]; simpl; [auto|].
  destruct (ranks_before p q); [auto|].
  eapply perm_trans; [apply perm_skip, IH | apply perm_swap].
Qed.

Lemma sort_preds_perm l : Permutation (sort_preds l) l.
Proof.
  induction l as [|p l IH]; simpl; [auto|].
  eapply perm_trans; [apply insert_pred_perm | apply perm_skip, IH].
Qed.

Lemma get_prediction_excludes uf itf known u preds :
  get_prediction uf itf known u true = Ok preds ->
  forall p, In p preds -> ~ In (fst p) known.
Proof.
  unfold get_prediction; intro H; unbind H; injection H as <-.
  intros p Hp Hk.
  apply (Permutation_in _ (sort_preds_perm _)), filter_In in Hp.
  destruct Hp as [_ Hp]; unfold is_known in Hp.
  apply (proj2 (in_existsb_eqb _ _)) in Hk; rewrite Hk in Hp; discriminate.
Qed.

Lemma collect_positive N preds acc :
  1 <= N -> Z.of_nat (length acc) < N ->
  collect N preds acc = acc ++ firstn (Z.to_nat N - length acc) preds.
Proof.
  revert acc; induction preds as [|p ps IH]; intros acc HN Hacc; simpl.
  - destruct (Z.to_nat N - length acc)%nat; simpl; symmetry; apply app_nil_r.
  - rewrite length_app; simpl.
    destruct (Z.eqb_spec (Z.of_nat (length acc + 1)) N) as [E|E].
    + replace (Z.to_nat N - length acc)%nat with 1%nat by lia; reflexivity.
    + rewrite IH by (try rewrite length_app; simpl; lia).
      rewrite length_app; simpl.
      replace (Z.to_nat N - length acc)%nat with (S (Z.to_nat N - (length acc + 1)))%nat by lia.
      simpl; rewrite <- app_assoc; reflexivity.
Qed.

(** C6 (corrected): for every [N >= 1] (the spec makes [N <= 0] an invalid
    configuration), with [remove_known_pos = true] the recommendations never
    contain a known positive of the user; they are the first [N] candidates,
    [min N (number of candidates)] of them, so a short candidate list gives
    a short result without error or padding. *)
Theorem recommend_excludes_known uf itf known u N recs :
  1 <= N ->
  get_recommendations uf itf known u N true = Ok recs ->
  exists cands, get_prediction uf itf known u true = Ok cands /\
    (forall i, In i (map fst recs) -> ~ In i known) /\
    recs = firstn (Z.to_nat N) cands /\
    length recs = Nat.min (Z.to_nat N) (length cands).
Proof.
  intros HN; unfold get_recommendations; intro H; unbind H; injection H as <-.
  exists a; split; [exact Hr|].
  pose proof (get_prediction_excludes _ _ _ _ _ Hr) as Hex.
  rewrite collect_positive by (simpl; lia); simpl; rewrite Nat.sub_0_r.
  split; [|split; [reflexivity | apply length_firstn]].
  intros i Hi; apply in_map_iff in Hi; destruct Hi as (p & <- & Hp).
  apply Hex.
  rewrite <- (firstn_skipn (Z.to_nat N) a); apply in_or_app; left; exact Hp.
Qed.

Lemma recommend_excludes_known_witness :
  exists recs, get_recommendations [[1%Q]] [[1%Q]; [2%Q]; [3%Q]] [3] 1 5 true = Ok recs /\
               map fst recs = [2; 1] /\ length recs = 2%nat.
Proof.
  destruct (get_recommendations [[1%Q]] [[1%Q]; [2%Q]; [3%Q]] [3] 1 5 true)
    as [recs|e] eqn:E; [|vm_compute in E; discriminate].
  exists recs; split; [reflexivity|].
  destruct (recommend_excludes_known _ _ _ _ 5 _ ltac:(lia) E) as (cands & Hc & _ & -> & _).
  vm_compute in Hc; injection Hc as <-; split; reflexivity.
Defined.

(** C6 (counterexample): "every N" does not hold at [N = 0]: the length
    check runs after the append, so it never fires and both candidates come
    back, more than [N]. *)
Lemma recommend_zero_returns_all :
  exists recs, get_recommendations [[1%Q]] [[1%Q]; [2%Q]] [] 1 0 true = Ok recs /\
               length recs = 2%nat /\ ~ (Z.of_nat (length recs) <= 0).
Proof. eexists; split; [reflexivity|]; split; [reflexivity | simpl; lia]. Qed.

(** ** C5: mean precision *)

Definition opt_Qeq (a b : option Q) : Prop :=
  match a, b with
  | Some x, Some y => (x == y)%Q
  | None, None => True
  | _, _ => False
  end.

Lemma sumQ_perm l1 l2 : Permutation l1 l2 -> (sumQ l1 == sumQ l2)%Q.
Proof.
  induction 1 as [| x l1 l2 _ IH | x y l | l1 l2 l3 _ IH1 _ IH2]; simpl.
  - reflexivity.
  - rewrite IH; reflexivity.
  - ring.
  - rewrite IH1; exact IH2.
Qed.

Lemma np_mean_perm l1 l2 : Permutation l1 l2 -> opt_Qeq (np_mean l1) (np_mean l2).
Proof.
  intro H; destruct l1 as [|x l1].
  - apply Permutation_nil in H; subst; exact I.
  - destruct l2 as [|y l2]; [apply Permutation_sym, Permutation_nil_cons in H; contradiction|].
    change (sumQ (x :: l1) / inject_Z (Z.of_nat (length (x :: l1))) ==
            sumQ (y :: l2) / inject_Z (Z.of_nat (length (y :: l2))))%Q.
    rewrite (Permutation_length H), (sumQ_perm _ _ H); reflexivity.
Qed.

Lemma somes_dict_set u p d :
  (forall v, In (u, v) d -> v = None) ->
  Permutation (somes (dict_set u (Some p) d)) (p :: somes d).
Proof.
  induction d as [|[k v] d IH]; intro H; simpl; [auto|].
  destruct (Z.eqb_spec k u) as [->|Hne].
  - rewrite (H v (or_introl eq_refl)); reflexivity.
  - simpl; rewrite IH by (intros; apply H; right; auto).
    apply Permutation_sym, Permutation_middle.
Qed.

Lemma in_dict_set {V} u (x : V) d k (w : V) :
  In (k, w) (dict_set u x d) -> (k = u /\ w = x) \/ In (k, w) d.
Proof.
  induction d as [|[k' v'] d IH]; simpl.
  - intros [E|[]]; injection E; auto.
  - destruct (k' =? u); simpl; intros [E|H].
    + injection E; auto.
    + auto.
    + injection E as -> ->; auto.
    + destruct (IH H); auto.
Qed.

Lemma fromkeys_none (keys : list Z) k w : ~ In (k, Some w) (fromkeys keys : list (Z * option Q)).
Proof.
  unfold fromkeys.
  assert (Hgen : forall (d : list (Z * option Q)), ~ In (k, Some w) d ->
                 ~ In (k, Some w) (fold_left (fun d k => dict_set k None d) keys d)).
  { induction keys as [|k0 keys IH]; intros d Hd; simpl; [exact Hd|].
    apply IH; intro Hin; apply in_dict_set in Hin; destruct Hin as [[_ E]|Hin];
      [discriminate | exact (Hd Hin)]. }
  apply Hgen; intros [].
Qed.

Lemma somes_no_some d : (forall k w, ~ In (k, Some w) d) -> somes d = [].
Proof.
  induction d as [|[k v] d IH]; intro H; simpl; [auto|].
  destruct v as [w|]; [destruct (H k w); now left|].
  apply IH; intros k' w' Hin; apply (H k' w'); now right.
Qed.

Lemma eval_fold_perm uf itf known N rel :
  forall d d',
  NoDup (map fst rel) ->
  (forall k w, In (k, Some w) d -> ~ In k (map fst rel)) ->
  fold_left (eval_step uf itf known N) rel (Ok d) = Ok d' ->
  exists ps, mapR (user_prec_pair uf itf known N) rel = Ok ps /\
             Permutation (somes d') (somes d ++ ps).
Proof.
  induction rel as [|ur rel IH]; intros d d' Hnd Hinv H; simpl in H.
  - injection H as <-; exists []; split; [reflexivity | rewrite app_nil_r; reflexivity].
  - destruct (user_prec_pair uf itf known N ur) as [p|e] eqn:Ep;
      [|simpl in H; rewrite fold_left_absorb in H; [discriminate | reflexivity]].
    simpl in H; inversion Hnd as [|? ? Hnotin Hnd']; subst.
    destruct (IH _ _ Hnd' ltac:(intros k w Hin; apply in_dict_set in Hin;
                                destruct Hin as [[-> _]|Hin]; [exact Hnotin|];
                                intro Hk; apply (Hinv k w Hin); right; exact Hk) H)
      as (ps & Hps & Hperm).
    exists (p :: ps); split; [simpl; rewrite Ep, Hps; reflexivity|].
    rewrite Hperm, somes_dict_set.
    + simpl; apply Permutation_middle.
    + intros [w|] Hin; [|reflexivity].
      destruct (Hinv _ _ Hin); now left.
Qed.

(** C5 (amended): when the evaluation completes, the values that are not
    [None] in [prec_at_N] are exactly the precisions computed for the users
    of [relevant_items], one each (users absent from it keep [None]), and
    their mean is the arithmetic mean of those precisions; there is no
    [InvalidConfig] check: with an empty user set the result is NaN (the
    mean of no values), not an error. *)
Theorem mean_precision_over_computed uf itf known all_users relevant N d :
  NoDup (map fst relevant) ->
  eval_prec uf itf known all_users relevant N = Ok d ->
  (exists ps, mapR (user_prec_pair uf itf known N) relevant = Ok ps /\
              Permutation (somes d) ps /\ opt_Qeq (mean_precision d) (np_mean ps)) /\
  (relevant = [] -> mean_precision d = None).
Proof.
  intros Hnd H; unfold eval_prec in H.
  destruct (eval_fold_perm _ _ _ _ _ _ _ Hnd (fun k w Hin => False_ind _ (fromkeys_none _ _ _ Hin)) H)
    as (ps & Hps & Hperm).
  rewrite (somes_no_some (fromkeys all_users)) in Hperm by apply fromkeys_none;
    simpl in Hperm.
  split.
  - exists ps; split; [exact Hps|]; split; [exact Hperm|].
    apply np_mean_perm, Hperm.
  - intros ->; injection H as <-; unfold mean_precision.
    rewrite somes_no_some by apply fromkeys_none; reflexivity.
Qed.

Lemma mean_precision_over_computed_witness :
  exists d, eval_prec [[1%Q]] [[1%Q]; [2%Q]] (fun _ => [1]) [1; 2] [(1, [2])] 1 = Ok d /\
            opt_Qeq (mean_precision d) (Some 1%Q).
Proof.
  destruct (eval_prec [[1%Q]] [[1%Q]; [2%Q]] (fun _ => [1]) [1; 2] [(1, [2])] 1)
    as [d|e] eqn:E; [|vm_compute in E; discriminate].
  exists d; split; [reflexivity|].
  destruct (mean_precision_over_computed [[1%Q]] [[1%Q]; [2%Q]] (fun _ => [1]) [1; 2] [(1, [2])] 1 d
              ltac:(simpl; constructor; [intros [] | constructor]) E)
    as [(ps & Hps & _ & Hm) _].
  vm_compute in Hps; injection Hps as <-; exact Hm.
Defined.

(** C5 (counterexample): neither an empty user set nor [N = -1] makes the
    evaluation fail; the first gives NaN, the second a precision of -1. *)
Lemma mean_precision_no_invalid_config :
  eval_prec [[1%Q]] [[1%Q]; [2%Q]] (fun _ => [1]) [1] [] 10 = Ok [(1, None)] /\
  mean_precision [(1, None)] = None /\
  (exists d, eval_prec [[1%Q]] [[1%Q]; [2%Q]] (fun _ => [1]) [1] [(1, [2])] (-1) = Ok d /\
             opt_Qeq (mean_precision d) (Some (-1)%Q)).
Proof.
  split; [reflexivity|]; split; [reflexivity|].
  eexists; split; [reflexivity | vm_compute; reflexivity].
Qed.

(** * Further properties of the notebooks *)

(** ** Minibatches of one epoch *)

Lemma firstn_add_app {A} a b (l : list A) :
  firstn (a + b) l = firstn a l ++ firstn b (skipn a l).
Proof.
  revert l; induction a as [|a IH]; intros [|x l]; simpl; auto.
  - now rewrite firstn_nil.
  - now rewrite IH.
Qed.

Lemma batches_concat ratings bs k :
  concat (map (minibatch ratings bs) (seq 0 k)) = firstn (k * bs) ratings.
Proof.
  induction k as [|k IH]; [reflexivity|].
  rewrite seq_S, map_app, concat_app, IH; simpl; rewrite app_nil_r.
  unfold minibatch; rewrite <- firstn_add_app; f_equal; lia.
Qed.

(** The slices [ratings.iloc[idx * batch_size:(idx + 1) * batch_size]] for
    [idx in range(num_batches)] are non-empty, hold at most [batch_size]
    ratings each, and put together give back the shuffled ratings in order:
    every epoch visits each training rating exactly once. *)
Theorem epoch_batches_partition ratings bs nb :
  num_batches (length ratings) bs = Ok nb ->
  concat (map (minibatch ratings bs) (seq 0 nb)) = ratings /\
  Forall (fun b => 0 < length b <= bs)%nat (map (minibatch ratings bs) (seq 0 nb)).
Proof.
  unfold num_batches; destruct (Nat.eqb_spec bs 0) as [->|Hbs]; [discriminate|].
  intro H; injection H as <-.
  pose proof (Nat.div_mod (length ratings + bs - 1) bs Hbs) as Hdm.
  pose proof (Nat.mod_upper_bound (length ratings + bs - 1) bs Hbs) as Hmb.
  set (q := ((length ratings + bs - 1) / bs)%nat) in *.
  set (r := ((length ratings + bs - 1) mod bs)%nat) in *.
  split.
  - rewrite batches_concat; apply firstn_all2; nia.
  - rewrite Forall_forall; intros b Hb; apply in_map_iff in Hb as (i & <- & Hi).
    apply in_seq in Hi; unfold minibatch; rewrite length_firstn, length_skipn.
    assert (i * bs + bs <= q * bs)%nat by nia.
    lia.
Qed.

Definition part_ratings : list Rating := [mkRating 1 1 3; mkRating 2 1 4; mkRating 1 2 5].

Lemma epoch_batches_partition_witness :
  num_batches (length part_ratings) 2 = Ok 2%nat /\
  concat (map (minibatch part_ratings 2) (seq 0 2)) = part_ratings.
Proof.
  split; [reflexivity|].
  exact (proj1 (epoch_batches_partition part_ratings 2 2 eq_refl)).
Defined.

(** ** The two error traces *)

Definition is_tick (p : nat * nat) : bool := Nat.eqb (snd p mod 300) 0.

Lemma step_trace_length cg lr test idx mb st st' :
  step cg lr test idx mb st = Ok st' ->
  length (rmse_trace st') = (length (rmse_trace st) + if Nat.eqb (idx mod 300) 0 then 1 else 0)%nat /\
  length (rmse_test_trace st') = (length (rmse_test_trace st) + if Nat.eqb (idx mod 300) 0 then 1 else 0)%nat.
Proof.
  unfold step; intro H; unbind H; destruct a as [[[uf itf] ue] ie].
  destruct (Nat.eqb (idx mod 300) 0).
  - unfold monitor in H; unbind H; injection H as <-; simpl.
    rewrite !length_app; simpl; lia.
  - injection H as <-; simpl; lia.
Qed.

Lemma train_loop_trace_length cg lr bs test ratings sched :
  forall st0 st, train_loop cg lr bs test ratings sched st0 = Ok st ->
  length (rmse_trace st) = (length (rmse_trace st0) + length (filter is_tick sched))%nat /\
  length (rmse_test_trace st) = (length (rmse_test_trace st0) + length (filter is_tick sched))%nat.
Proof.
  induction sched as [|[epoch idx] sched IH]; intros st0 st H.
  - injection H as <-; simpl; lia.
  - rewrite train_loop_cons in H; unbind H.
    destruct (step_trace_length _ _ _ _ _ _ _ Hr) as [L1 L2].
    destruct (IH _ _ H) as [M1 M2].
    cbn [filter]; change (is_tick (epoch, idx)) with (Nat.eqb (idx mod 300) 0).
    destruct (Nat.eqb (idx mod 300) 0); simpl in *; lia.
Qed.

Lemma filter_epoch_ticks epoch nb :
  length (filter is_tick (map (fun idx => (epoch, idx)) (seq 0 nb))) =
  length (filter (fun idx => Nat.eqb (idx mod 300) 0) (seq 0 nb)).
Proof.
  induction (seq 0 nb) as [|i l IH]; [reflexivity|].
  cbn [map filter]; change (is_tick (epoch, i)) with (Nat.eqb (i mod 300) 0).
  destruct (Nat.eqb (i mod 300) 0); cbn [length]; lia.
Qed.

Lemma schedule_ticks epochs nb :
  length (filter is_tick (schedule epochs nb)) =
  (epochs * length (filter (fun idx => Nat.eqb (idx mod 300) 0) (seq 0 nb)))%nat.
Proof.
  unfold schedule; induction epochs as [|e IH]; [reflexivity|].
  rewrite seq_S, flat_map_app, filter_app, length_app, IH; cbn [flat_map].
  rewrite app_nil_r, filter_epoch_ticks; lia.
Qed.

Lemma div_300 a q : (a < 300)%nat -> ((a + q * 300) / 300)%nat = q.
Proof.
  intro Ha; rewrite Nat.div_add by lia; rewrite Nat.div_small by lia; reflexivity.
Qed.

(** [not idx % 300] holds for [ceil(num_batches / 300)] of the indices. *)
Lemma count_ticks nb :
  length (filter (fun idx => Nat.eqb (idx mod 300) 0) (seq 0 nb)) = ((nb + 299) / 300)%nat.
Proof.
  induction nb as [|nb IH]; [reflexivity|].
  rewrite seq_S, filter_app, length_app, IH, Nat.add_0_l; cbn [filter].
  pose proof (Nat.div_mod nb 300 ltac:(lia)) as D.
  pose proof (Nat.mod_upper_bound nb 300 ltac:(lia)) as B.
  set (q := (nb / 300)%nat) in *; set (r := (nb mod 300)%nat) in *.
  destruct (Nat.eqb_spec r 0) as [E|E]; cbn [length].
  - replace (nb + 299)%nat with (299 + q * 300)%nat by lia.
    replace (S nb + 299)%nat with (0 + (q + 1) * 300)%nat by lia.
    rewrite !div_300 by lia; lia.
  - replace (nb + 299)%nat with ((r - 1) + (q + 1) * 300)%nat by lia.
    replace (S nb + 299)%nat with (r + (q + 1) * 300)%nat by lia.
    rewrite !div_300 by lia; lia.
Qed.

(** After a completed run of the training cells, each of [rmse_trace] and
    [rmse_test_trace] holds one entry per epoch and per multiple of 300
    below [num_batches]: [epochs * ceil(num_batches / 300)] entries. *)
Theorem fit_trace_length cg normal sample seed m n d epochs bs lr train test st :
  fit cg normal sample seed m n d epochs bs lr train test = Ok st ->
  exists nb, num_batches (length (sample seed train)) bs = Ok nb /\
    length (rmse_trace st) = (epochs * ((nb + 299) / 300))%nat /\
    length (rmse_test_trace st) = (epochs * ((nb + 299) / 300))%nat.
Proof.
  unfold fit, init, shuffled; intro H; unbind H.
  exists a; split; [exact Hr|].
  destruct (train_loop_trace_length _ _ _ _ _ _ _ _ H) as [L1 L2]; simpl in L1, L2.
  rewrite schedule_ticks, count_ticks in L1, L2; auto.
Qed.

Lemma fit_trace_length_witness :
  exists st, fit compute_gradients_spec demo_normal demo_sample 0 1 2 1 2 1 (1#10)
               demo_train [] = Ok st /\ length (rmse_trace st) = 2%nat.
Proof.
  destruct (fit compute_gradients_spec demo_normal demo_sample 0 1 2 1 2 1 (1#10) demo_train [])
    as [st|e] eqn:E; [|vm_compute in E; discriminate].
  exists st; split; [reflexivity|].
  destruct (fit_trace_length compute_gradients_spec demo_normal demo_sample 0 1 2 1 2 1 (1#10)
              demo_train [] st E) as (nb & Hnb & L & _).
  vm_compute in Hnb; injection Hnb as <-; rewrite L; reflexivity.
Defined.

(** At a step with [not idx % 300], the training error appended to
    [rmse_trace] is the error of the batch under the embeddings gathered
    BEFORE this step's update, while the test error appended to
    [rmse_test_trace] uses the factor matrices AFTER it; at every other
    step both traces are left as they are. *)
Theorem step_monitoring cg lr test idx mb st st' :
  step cg lr test idx mb st = Ok st' ->
  if Nat.eqb (idx mod 300) 0 then
    exists ue ie q tu ti q',
      gather (user_factors st) (user_idx mb) = Ok ue /\
      gather (item_factors st) (item_idx mb) = Ok ie /\
      get_mse (ratings_of mb) ue ie = Ok q /\
      gather (user_factors st') (user_idx test) = Ok tu /\
      gather (item_factors st') (user_idx test) = Ok ti /\
      get_mse (ratings_of test) tu ti = Ok q' /\
      rmse_trace st' = rmse_trace st ++ [q] /\
      rmse_test_trace st' = rmse_test_trace st ++ [q']
  else rmse_trace st' = rmse_trace st /\ rmse_test_trace st' = rmse_test_trace st.
Proof.
  unfold step; intro H; unbind H; destruct a as [[[uf itf] ue] ie].
  destruct (Nat.eqb (idx mod 300) 0).
  - unfold monitor in H; unbind H; injection H as <-; simpl in *.
    unfold update in Hr; unbind Hr; destruct a5 as [ug ig]; unbind Hr.
    injection Hr as <- <- <- <-.
    exists a3, a4, a, a0, a1, a2; repeat split; assumption.
  - injection H as <-; simpl; auto.
Qed.

Definition mon_st0 : state := mkState [[1%Q]; [2%Q]] [[1%Q]; [1%Q]] [] [].
Definition mon_mb : list Rating := [mkRating 1 1 3].
Definition mon_test : list Rating := [mkRating 2 2 2].

Lemma step_monitoring_witness :
  exists st', step compute_gradients_spec (1#10) mon_test 0 mon_mb mon_st0 = Ok st' /\
    exists ue ie q, gather (user_factors mon_st0) (user_idx mon_mb) = Ok ue /\
                    gather (item_factors mon_st0) (item_idx mon_mb) = Ok ie /\
                    get_mse (ratings_of mon_mb) ue ie = Ok q /\
                    rmse_trace st' = [q].
Proof.
  destruct (step compute_gradients_spec (1#10) mon_test 0 mon_mb mon_st0) as [st'|e] eqn:E;
    [|vm_compute in E; discriminate].
  exists st'; split; [reflexivity|].
  pose proof (step_monitoring compute_gradients_spec (1#10) mon_test 0 mon_mb mon_st0 st' E) as M.
  simpl in M; destruct M as (ue & ie & q & tu & ti & q' & G1 & G2 & Q1 & _ & _ & _ & T & _).
  exists ue, ie, q; repeat split; assumption.
Defined.

(** ** Shapes of the factor matrices *)

Definition has_shape (rows d : nat) (M : matrix) : Prop :=
  length M = rows /\ Forall (fun r => length r = d) M.

Lemma vzip_length f a b r : vzip f a b = Ok r -> length r = length a /\ length b = length a.
Proof.
  revert b r; induction a as [|x a IH]; intros [|y b] r H; simpl in H; try discriminate.
  - injection H as <-; auto.
  - unbind H; injection H as <-; destruct (IH _ _ Hr); simpl; auto.
Qed.

Lemma mzip_length f A B R :
  mzip f A B = Ok R ->
  length B = length A /\ length R = length A /\ Forall2 (fun a r => length r = length a) A R.
Proof.
  revert B R; induction A as [|a A IH]; intros [|b B] R H; simpl in H; try discriminate.
  - injection H as <-; auto.
  - unbind H; injection H as <-.
    destruct (vzip_length _ _ _ _ Hr) as [L _].
    destruct (IH _ _ Hr0) as (L1 & L2 & F); simpl; auto.
Qed.

Lemma np_index_lt rows i k : np_index rows i = Some k -> (k < rows)%nat.
Proof.
  unfold np_index; destruct ((0 <=? i) && (i <? Z.of_nat rows)) eqn:E1.
  - intro H; injection H as <-; apply andb_prop in E1 as [E1 E2].
    apply Z.leb_le in E1; apply Z.ltb_lt in E2; lia.
  - destruct ((- Z.of_nat rows <=? i) && (i <? 0)) eqn:E2; [|discriminate].
    intro H; injection H as <-; apply andb_prop in E2 as [E2 E3].
    apply Z.leb_le in E2; apply Z.ltb_lt in E3; lia.
Qed.

Lemma np_index_in_range rows i :
  0 <= i < Z.of_nat rows -> np_index rows i = Some (Z.to_nat i).
Proof.
  intro H; unfold np_index.
  replace ((0 <=? i) && (i <? Z.of_nat rows)) with true; [reflexivity|].
  symmetry; apply andb_true_intro; split; [apply Z.leb_le | apply Z.ltb_lt]; lia.
Qed.

Lemma list_set_forall {A} (P : A -> Prop) k x l :
  Forall P l -> P x -> Forall P (list_set k x l).
Proof.
  revert k; induction l as [|y l IH]; intros [|k] H Hx; simpl; auto;
    inversion_clear H; constructor; auto.
Qed.

Lemma set_rows_forall (P : row -> Prop) M ks V :
  Forall P M -> Forall P V -> Forall P (set_rows M ks V).
Proof.
  revert M V; induction ks as [|k ks IH]; intros M [|v V] HM HV; simpl; auto.
  inversion_clear HV; apply IH; auto; apply list_set_forall; auto.
Qed.

Lemma forall2_width (d : nat) (A R : matrix) :
  Forall2 (fun a r => length r = length a) A R ->
  Forall (fun r => length r = d) A -> Forall (fun r => length r = d) R.
Proof.
  induction 1 as [|a r A R Har _ IH]; intro HA; [constructor|].
  inversion_clear HA; constructor; [congruence | auto].
Qed.

Lemma isub_fancy_shape rows d M idx D M' :
  has_shape rows d M -> isub_fancy M idx D = Ok M' -> has_shape rows d M'.
Proof.
  intros [HL HF] H; unfold isub_fancy in H; unbind H; injection H as <-.
  split; [rewrite set_rows_length; exact HL|].
  apply set_rows_forall; [exact HF|].
  destruct (mzip_length _ _ _ _ Hr0) as (_ & _ & F).
  apply (forall2_width d _ _ F).
  unfold take_rows; apply Forall_forall; intros row Hrow.
  apply in_map_iff in Hrow as (k & <- & Hk).
  destruct (resolve_in _ _ _ Hr k Hk) as (i & _ & Ei); apply np_index_lt in Ei.
  rewrite Forall_forall in HF; apply HF, nth_In; exact Ei.
Qed.

Lemma draw_matrix_shape normal seed off rows d :
  has_shape rows d (draw_matrix normal seed off rows d).
Proof.
  unfold draw_matrix; split; [now rewrite length_map, length_seq|].
  apply Forall_forall; intros r Hr; apply in_map_iff in Hr as (i & <- & _).
  now rewrite length_map, length_seq.
Qed.

(** A completed training run leaves [user_factors] of shape [(m, d)] and
    [item_factors] of shape [(n, d)], the shapes they were drawn with: the
    in-place updates never add, drop or resize a row. *)
Theorem fit_shapes cg normal sample seed m n d epochs bs lr train test st :
  fit cg normal sample seed m n d epochs bs lr train test = Ok st ->
  has_shape m d (user_factors st) /\ has_shape n d (item_factors st).
Proof.
  unfold fit, init, shuffled; intro H; unbind H.
  assert (Hstep : forall idx mb st1 st2, step cg lr test idx mb st1 = Ok st2 ->
            has_shape m d (user_factors st1) /\ has_shape n d (item_factors st1) ->
            has_shape m d (user_factors st2) /\ has_shape n d (item_factors st2)).
  { intros idx mb st1 st2 Hs [HU HI]; apply step_ok_inv in Hs as (ue & ie & Hu).
    apply update_frame in Hu as [[Du Hu] [Di Hi]].
    split; eapply isub_fancy_shape; eauto. }
  apply (train_loop_preserves (fun U I => has_shape m d U /\ has_shape n d I)
           cg lr bs test _ Hstep _ _ _ H).
  split; apply draw_matrix_shape.
Qed.

Lemma fit_shapes_witness :
  exists st, fit compute_gradients_spec demo_normal demo_sample 0 1 2 1 2 1 (1#10)
               demo_train [] = Ok st /\ has_shape 1 1 (user_factors st).
Proof.
  destruct (fit compute_gradients_spec demo_normal demo_sample 0 1 2 1 2 1 (1#10) demo_train [])
    as [st|e] eqn:E; [|vm_compute in E; discriminate].
  exists st; split; [reflexivity|].
  exact (proj1 (fit_shapes compute_gradients_spec demo_normal demo_sample 0 1 2 1 2 1 (1#10)
                  demo_train [] st E)).
Defined.

(** ** Rows no training rating refers to *)

Lemma in_firstn {A} n (l : list A) x : In x (firstn n l) -> In x l.
Proof. intro H; rewrite <- (firstn_skipn n l); apply in_or_app; left; exact H. Qed.

Lemma in_skipn {A} n (l : list A) x : In x (skipn n l) -> In x l.
Proof. intro H; rewrite <- (firstn_skipn n l); apply in_or_app; right; exact H. Qed.

Lemma in_minibatch ratings bs idx x : In x (minibatch ratings bs idx) -> In x ratings.
Proof. unfold minibatch; intro H; apply in_firstn, in_skipn in H; exact H. Qed.

Lemma train_loop_preserves_batches (P : state -> Prop) cg lr bs test ratings :
  (forall idx st st', step cg lr test idx (minibatch ratings bs idx) st = Ok st' -> P st -> P st') ->
  forall sched st0 st, train_loop cg lr bs test ratings sched st0 = Ok st -> P st0 -> P st.
Proof.
  intros Hstep; induction sched as [|[epoch idx] sched IH]; intros st0 st H HP.
  - injection H as <-; exact HP.
  - rewrite train_loop_cons in H; unbind H; eauto.
Qed.

Lemma isub_fancy_keeps_row rows M idx D M' r :
  length M = rows -> isub_fancy M idx D = Ok M' ->
  (forall i, In i idx -> 0 <= i < Z.of_nat rows /\ i <> Z.of_nat r) ->
  length M' = rows /\ nth_error M' r = nth_error M r.
Proof.
  intros HL H Hi; apply isub_fancy_frame in H as [L F].
  split; [congruence|]; apply F; intros i Hin E.
  destruct (Hi i Hin) as [Hr Hne]; subst rows; rewrite np_index_in_range in E by exact Hr.
  injection E as E; apply Hne; lia.
Qed.

(** If every shuffled training rating has its user id in [1..m] and its
    item id in [1..n] (so that no id wraps around), the row of a user [r + 1]
    and of an item [s + 1] that no training rating mentions keeps its
    random initial value through the whole run. *)
Theorem fit_cold_rows_keep_init cg normal sample seed m n d epochs bs lr train test st r s :
  (forall x, In x (sample seed train) -> 1 <= user x <= Z.of_nat m /\ user x <> Z.of_nat r + 1) ->
  (forall x, In x (sample seed train) -> 1 <= item x <= Z.of_nat n /\ item x <> Z.of_nat s + 1) ->
  fit cg normal sample seed m n d epochs bs lr train test = Ok st ->
  nth_error (user_factors st) r = nth_error (draw_matrix normal seed 0 m d) r /\
  nth_error (item_factors st) s = nth_error (draw_matrix normal seed (m * d) n d) s.
Proof.
  intros HU HI; unfold fit, init, shuffled; intro H; unbind H.
  set (P := fun st : state =>
              length (user_factors st) = m /\ length (item_factors st) = n /\
              nth_error (user_factors st) r = nth_error (draw_matrix normal seed 0 m d) r /\
              nth_error (item_factors st) s = nth_error (draw_matrix normal seed (m * d) n d) s).
  enough (HP : P st) by (destruct HP as (_ & _ & ? & ?); auto).
  refine (train_loop_preserves_batches P cg lr bs test _ _ _ _ _ H _).
  - intros idx st1 st2 Hs (L1 & L2 & E1 & E2).
    apply step_ok_inv in Hs as (ue & ie & Hu).
    apply update_frame in Hu as [[Du Hu] [Di Hi]].
    destruct (isub_fancy_keeps_row m _ _ _ _ r L1 Hu) as [L1' E1'].
    { unfold user_idx; intros i Hin; apply in_map_iff in Hin as (x & <- & Hx).
      apply in_minibatch in Hx; destruct (HU x Hx); lia. }
    destruct (isub_fancy_keeps_row n _ _ _ _ s L2 Hi) as [L2' E2'].
    { unfold item_idx; intros i Hin; apply in_map_iff in Hin as (x & <- & Hx).
      apply in_minibatch in Hx; destruct (HI x Hx); lia. }
    unfold P; rewrite E1', E2'; auto.
  - unfold P; simpl; rewrite (proj1 (draw_matrix_shape _ _ _ _ _)),
                             (proj1 (draw_matrix_shape _ _ _ _ _)); auto.
Qed.

Definition cold_train : list Rating := [mkRating 1 1 3].

Lemma fit_cold_rows_keep_init_witness :
  exists st, fit compute_gradients_spec demo_normal demo_sample 0 2 2 1 3 1 (1#10)
               cold_train [] = Ok st /\
             nth_error (user_factors st) 1 = nth_error (draw_matrix demo_normal 0 0 2 1) 1.
Proof.
  destruct (fit compute_gradients_spec demo_normal demo_sample 0 2 2 1 3 1 (1#10) cold_train [])
    as [st|e] eqn:E; [|vm_compute in E; discriminate].
  exists st; split; [reflexivity|].
  refine (proj1 (fit_cold_rows_keep_init compute_gradients_spec demo_normal demo_sample 0 2 2 1 3 1
                   (1#10) cold_train [] st 1 1 _ _ E));
    intros x Hx; unfold demo_sample, cold_train in Hx; simpl in Hx;
    destruct Hx as [<-|[]]; simpl; lia.
Defined.

(** ** Batches without repeated ids *)

Lemma vzip_vsub a b r : vzip Qminus a b = Ok r -> r = vsub_total a b.
Proof.
  revert b r; induction a as [|x a IH]; intros [|y b] r H; simpl in H; try discriminate.
  - injection H as <-; reflexivity.
  - unbind H; injection H as <-; rewrite (IH _ _ Hr); reflexivity.
Qed.

Lemma nth_list_set_other {A} k (x : A) l r dflt :
  r <> k -> nth r (list_set k x l) dflt = nth r l dflt.
Proof.
  revert k r; induction l as [|y l IH]; intros [|k] [|r] Hne; simpl; auto;
    try congruence; apply IH; congruence.
Qed.

Lemma take_rows_list_set M ks k v :
  ~ In k ks -> take_rows (list_set k v M) ks = take_rows M ks.
Proof.
  intro Hk; unfold take_rows; apply map_ext_in; intros r Hr.
  apply nth_list_set_other; intros ->; contradiction.
Qed.

Lemma set_rows_scatter M ks D T :
  NoDup ks -> mzip Qminus (take_rows M ks) D = Ok T ->
  set_rows M ks T = scatter_sub_each M ks D.
Proof.
  revert M D T; induction ks as [|k ks IH]; intros M D T Hnd H.
  - destruct D; simpl in H; [injection H as <-|discriminate]; reflexivity.
  - destruct D as [|dl D]; simpl in H; [discriminate|].
    unbind H; injection H as <-; inversion_clear Hnd as [|? ? Hk Hnd'].
    simpl; rewrite <- (vzip_vsub _ _ _ Hr).
    apply IH; [exact Hnd'|]; rewrite take_rows_list_set by exact Hk; exact Hr0.
Qed.

Lemma resolve_in_range rows idx :
  (forall i, In i idx -> 0 <= i < Z.of_nat rows) -> resolve rows idx = Ok (map Z.to_nat idx).
Proof.
  induction idx as [|i idx IH]; intro H; [reflexivity|]; simpl.
  rewrite np_index_in_range by (apply H; now left).
  rewrite IH by (intros; apply H; now right); reflexivity.
Qed.

Lemma nodup_map_inj {A B C} (f : A -> B) (g : A -> C) l :
  NoDup (map f l) -> (forall x y, In x l -> In y l -> g x = g y -> f x = f y) -> NoDup (map g l).
Proof.
  induction l as [|a l IH]; intros Hnd Hinj; simpl; [constructor|].
  inversion_clear Hnd as [|? ? Ha Hnd']; constructor.
  - intro Hin; apply in_map_iff in Hin as (y & Ey & Hy); apply Ha.
    rewrite (Hinj a y (or_introl eq_refl) (or_intror Hy) (eq_sym Ey)); apply in_map, Hy.
  - apply IH; [exact Hnd'|]; intros; apply Hinj; auto; right; auto.
Qed.

Lemma isub_fancy_distinct M idx D M' :
  (forall i, In i idx -> 0 <= i < Z.of_nat (length M)) -> NoDup (map Z.to_nat idx) ->
  isub_fancy M idx D = Ok M' ->
  scatter_sub_each M (map Z.to_nat idx) D = M'.
Proof.
  intros Hr Hnd H; unfold isub_fancy in H; rewrite resolve_in_range in H by exact Hr.
  simpl in H; unbind H; injection H as <-.
  symmetry; apply set_rows_scatter; auto.
Qed.

Lemma nodup_ids (f : Rating -> Z) mb rows :
  (forall x, In x mb -> 1 <= f x <= rows) -> NoDup (map f mb) ->
  NoDup (map Z.to_nat (map (fun r => f r - 1) mb)).
Proof.
  intros Hr Hnd; rewrite map_map; apply (nodup_map_inj f); [exact Hnd|].
  intros x y Hx Hy E; apply Hr in Hx; apply Hr in Hy; lia.
Qed.

(** When no user and no item occurs twice in a minibatch and all ids are
    in range, the update of lines 203-204 is the same as applying every
    per-instance delta to its row: repeated ids (claim C1) are the only way
    a delta gets lost. *)
Theorem update_distinct_ids_accumulates cg lr mb st uf itf ue ie :
  (forall x, In x mb -> 1 <= user x <= Z.of_nat (length (user_factors st))) ->
  (forall x, In x mb -> 1 <= item x <= Z.of_nat (length (item_factors st))) ->
  NoDup (map user mb) -> NoDup (map item mb) ->
  update cg lr mb st = Ok (uf, itf, ue, ie) ->
  update_accumulate cg lr mb st = Ok (uf, itf).
Proof.
  intros HU HI NU NI H; unfold update in H; unbind H; destruct a1 as [ug ig]; unbind H.
  injection H as <- <- _ _.
  assert (RU : forall i, In i (user_idx mb) -> 0 <= i < Z.of_nat (length (user_factors st))).
  { unfold user_idx; intros i Hin; apply in_map_iff in Hin as (x & <- & Hx); apply HU in Hx; lia. }
  assert (RI : forall i, In i (item_idx mb) -> 0 <= i < Z.of_nat (length (item_factors st))).
  { unfold item_idx; intros i Hin; apply in_map_iff in Hin as (x & <- & Hx); apply HI in Hx; lia. }
  unfold update_accumulate; rewrite Hr, Hr0; simpl; rewrite Hr1; simpl.
  rewrite !resolve_in_range by assumption; simpl.
  rewrite (isub_fancy_distinct _ _ _ _ RU (nodup_ids user mb _ HU NU) Hr2).
  rewrite (isub_fancy_distinct _ _ _ _ RI (nodup_ids item mb _ HI NI) Hr3).
  reflexivity.
Qed.

Definition distinct_st0 : state := mkState [[1%Q]; [2%Q]] [[1%Q]; [3%Q]] [] [].
Definition distinct_mb : list Rating := [mkRating 1 2 3; mkRating 2 1 4].

Lemma update_distinct_ids_accumulates_witness :
  exists uf itf ue ie,
    update compute_gradients_spec (1#10) distinct_mb distinct_st0 = Ok (uf, itf, ue, ie) /\
    update_accumulate compute_gradients_spec (1#10) distinct_mb distinct_st0 = Ok (uf, itf).
Proof.
  destruct (update compute_gradients_spec (1#10) distinct_mb distinct_st0)
    as [[[[uf itf] ue] ie]|e] eqn:E; [|vm_compute in E; discriminate].
  exists uf, itf, ue, ie; split; [reflexivity|].
  refine (update_distinct_ids_accumulates compute_gradients_spec (1#10) distinct_mb distinct_st0
            uf itf ue ie _ _ _ _ E).
  - intros x Hx; simpl in Hx; destruct Hx as [<-|[<-|[]]]; simpl; lia.
  - intros x Hx; simpl in Hx; destruct Hx as [<-|[<-|[]]]; simpl; lia.
  - simpl; constructor; [intros [H|[]]; discriminate | constructor; [intros [] | constructor]].
  - simpl; constructor; [intros [H|[]]; discriminate | constructor; [intros [] | constructor]].
Defined.

(** ** The error measure of [get_rmse] *)

Lemma bcast_len_refl n : bcast_len n n = Some n.
Proof. unfold bcast_len; rewrite Nat.eqb_refl; reflexivity. Qed.

Lemma bcast_len_left a b n : bcast_len a b = Some n -> a <> 1%nat -> n = a.
Proof.
  unfold bcast_len; intros H Ha.
  destruct (Nat.eqb_spec a b); [congruence|].
  destruct (Nat.eqb_spec a 1); [contradiction|].
  destruct (Nat.eqb_spec b 1); congruence.
Qed.

Lemma vbcast_err f a b e : vbcast f a b = Err e -> e = ValueError.
Proof. unfold vbcast; destruct (bcast_len _ _); congruence. Qed.

Lemma vbcast_ok f a b x :
  vbcast f a b = Ok x -> exists n, bcast_len (length a) (length b) = Some n /\ length x = n.
Proof.
  unfold vbcast; destruct (bcast_len _ _) as [n|]; [|discriminate].
  intros H; injection H as <-; exists n; split; [reflexivity|].
  rewrite length_map, length_seq; reflexivity.
Qed.

Lemma vbcast_same f a b : length a = length b -> exists x, vbcast f a b = Ok x.
Proof. unfold vbcast; intros ->; rewrite bcast_len_refl; eauto. Qed.

Lemma mapR_err {A B} (f : A -> Result B) l e :
  (forall x e', f x = Err e' -> e' = ValueError) -> mapR f l = Err e -> e = ValueError.
Proof.
  intros Hf; induction l as [|x l IH]; simpl; [discriminate|].
  destruct (f x) eqn:E; simpl; [|intros H; injection H as <-; eauto].
  destruct (mapR f l) eqn:E'; simpl; [discriminate|].
  intros H; injection H as <-; auto.
Qed.

Lemma mapR_total {A B} (f : A -> Result B) l :
  (forall x, In x l -> exists y, f x = Ok y) ->
  exists ys, mapR f l = Ok ys /\ length ys = length l.
Proof.
  induction l as [|x l IH]; simpl; intros Hf; [eauto|].
  destruct (Hf x (or_introl eq_refl)) as (y & ->).
  destruct IH as (ys & -> & L); [eauto|].
  exists (y :: ys); simpl; auto.
Qed.

Lemma mapR_length {A B} (f : A -> Result B) l ys : mapR f l = Ok ys -> length ys = length l.
Proof.
  revert ys; induction l as [|x l IH]; simpl; intros ys H; [injection H as <-; reflexivity|].
  unbind H; injection H as <-; simpl; f_equal; auto.
Qed.

Lemma mbcast_err f A B e : mbcast f A B = Err e -> e = ValueError.
Proof.
  unfold mbcast; destruct (bcast_len _ _); [|congruence].
  apply mapR_err; intros x e'; apply vbcast_err.
Qed.

Lemma mbcast_ok f A B X :
  mbcast f A B = Ok X -> exists n, bcast_len (length A) (length B) = Some n /\ length X = n.
Proof.
  unfold mbcast; destruct (bcast_len _ _) as [n|]; [|discriminate].
  intros H; exists n; split; [reflexivity|].
  rewrite (mapR_length _ _ _ H), length_seq; reflexivity.
Qed.

Lemma Forall2_nth_default {A B} (P : A -> B -> Prop) l l' d d' j :
  Forall2 P l l' -> P d d' -> P (nth j l d) (nth j l' d').
Proof.
  intros H Hd; revert j; induction H as [|x y l l' Hxy _ IH]; intros [|j]; simpl; auto.
Qed.

Lemma Qsq_nonneg (e : Q) : (0 <= e * e)%Q.
Proof.
  destruct (Qlt_le_dec e 0) as [H|H].
  - setoid_replace (e * e)%Q with ((- e) * (- e))%Q by ring.
    apply Qmult_le_0_compat; apply (Qopp_le_compat e 0), Qlt_le_weak, H.
  - apply Qmult_le_0_compat; exact H.
Qed.

Lemma sumQ_nonneg l : Forall (fun x => 0 <= x)%Q l -> (0 <= sumQ l)%Q.
Proof.
  induction 1 as [|x l Hx _ IH]; simpl; [apply Qle_refl|].
  apply (Qplus_le_compat 0 x 0 (sumQ l)); assumption.
Qed.

(** [get_rmse(rating, u, v)] before its square root: it raises only
    [ValueError] (from the broadcasts); a number it returns is
    non-negative; it returns NaN only when there is at most one rating
    (with two or more ratings the broadcast result has one entry per
    rating); and when [u] and [v] have one row per rating, with matching
    row widths, and there is at least one rating, it returns a number. *)
Theorem get_mse_errors_and_sign r u v :
  (forall e, get_mse r u v = Err e -> e = ValueError) /\
  (forall q, get_mse r u v = Ok (Some q) -> (0 <= q)%Q) /\
  (get_mse r u v = Ok None -> (length r <= 1)%nat) /\
  (length u = length r -> length v = length r ->
   Forall2 (fun a b => length a = length b) u v -> r <> [] ->
   exists q, get_mse r u v = Ok (Some q)).
Proof.
  unfold get_mse; split; [|split; [|split]].
  - intros e H; destruct (mbcast Qmult u v) eqn:E; simpl in H;
      [|injection H as <-; exact (mbcast_err _ _ _ _ E)].
    destruct (vbcast Qminus r (map sumQ a)) eqn:E'; simpl in H; [discriminate|].
    injection H as <-; exact (vbcast_err _ _ _ _ E').
  - intros q H; unbind H; injection H as Hq.
    destruct a0 as [|x err]; simpl in Hq; [discriminate|].
    injection Hq as <-; apply Qle_shift_div_l.
    + change 0%Q with (inject_Z 0); rewrite <- Zlt_Qlt; simpl; lia.
    + rewrite Qmult_0_l; refine (sumQ_nonneg (map (fun e => (e * e)%Q) (x :: err)) _).
      apply Forall_forall; intros y Hy; apply in_map_iff in Hy as (z & <- & _); apply Qsq_nonneg.
  - intros H; unbind H; injection H as Hm.
    destruct a0 as [|x err]; [|discriminate].
    destruct (vbcast_ok _ _ _ _ Hr0) as (n & Hn & Ln).
    simpl in Ln; subst n.
    destruct (Nat.eq_dec (length r) 1) as [E|E]; [lia|].
    pose proof (bcast_len_left _ _ _ Hn E); lia.
  - intros Lu Lv Hw Hr.
    assert (Hu : exists uv, mbcast Qmult u v = Ok uv /\ length uv = length r).
    { unfold mbcast; rewrite Lu, Lv, bcast_len_refl.
      destruct (mapR_total (fun i => vbcast Qmult (bget u [] i) (bget v [] i)) (seq 0 (length r)))
        as (uv & Huv & L).
      - intros i _; apply vbcast_same; unfold bget; rewrite Lu, Lv.
        apply (Forall2_nth_default (fun a b => length a = length b)); [exact Hw | reflexivity].
      - exists uv; split; [exact Huv|]; rewrite L, length_seq; reflexivity. }
    destruct Hu as (uv & Huv & L); rewrite Huv; cbn [bind].
    unfold vbcast; rewrite length_map.
    destruct (bcast_len (length r) _) as [n|] eqn:Eb; unfold bcast_len in Eb;
      match type of Eb with context [Nat.eqb ?a ?b] =>
        assert (Eab : Nat.eqb a b = true) by (apply Nat.eqb_eq; exact (eq_sym L));
        rewrite Eab in Eb end; [|discriminate].
    injection Eb as <-; cbn [bind].
    destruct r as [|r0 r']; [contradiction|].
    eexists; reflexivity.
Qed.

(** [get_rmse([1, 2], [[1]], [[1]])]: the single row of [u] and [v] is
    broadcast against both ratings, giving the mean squared error [1/2]. *)
Lemma get_mse_errors_and_sign_witness :
  get_mse [1%Q; 2%Q] [[1%Q]] [[1%Q]] = Ok (Some (1 # 2)%Q) /\ (0 <= 1 # 2)%Q.
Proof.
  split; [vm_compute; reflexivity|].
  apply (proj1 (proj2 (get_mse_errors_and_sign [1%Q; 2%Q] [[1%Q]] [[1%Q]]))).
  vm_compute; reflexivity.
Defined.

(** ** The [prec_at_N] dictionary *)

Lemma dict_set_self {V} k (v : V) d : In (k, v) (dict_set k v d).
Proof.
  induction d as [|[k' v'] d IH]; simpl; [auto|].
  destruct (Z.eqb_spec k' k); simpl; auto.
Qed.

Lemma dict_set_keep {V} k (v : V) d k' v' :
  k' <> k -> In (k', v') d -> In (k', v') (dict_set k v d).
Proof.
  induction d as [|[k0 v0] d IH]; simpl; [tauto|].
  intros Hne [E|H]; destruct (Z.eqb_spec k0 k); simpl.
  - congruence.
  - left; exact E.
  - right; exact H.
  - right; apply IH; auto.
Qed.

Lemma dict_set_keys {V} k (v : V) d k' :
  In k' (map fst (dict_set k v d)) <-> k' = k \/ In k' (map fst d).
Proof.
  induction d as [|[k0 v0] d IH]; simpl; [intuition congruence|].
  destruct (Z.eqb_spec k0 k) as [->|Hne]; simpl; [intuition congruence|].
  rewrite IH; intuition congruence.
Qed.

Lemma dict_set_nodup {V} k (v : V) d : NoDup (map fst d) -> NoDup (map fst (dict_set k v d)).
Proof.
  induction d as [|[k0 v0] d IH]; simpl; intro Hnd; [repeat constructor; intros []|].
  inversion_clear Hnd as [|? ? Hk0 Hnd'].
  destruct (Z.eqb_spec k0 k) as [->|Hne]; simpl; constructor; auto.
  rewrite dict_set_keys; intuition congruence.
Qed.

Lemma fromkeys_fold (keys : list Z) : forall (acc : list (Z * option Q)),
  NoDup (map fst acc) ->
  NoDup (map fst (fold_left (fun d k => dict_set k None d) keys acc)) /\
  (forall u v, In (u, v) acc -> ~ In u keys ->
               In (u, v) (fold_left (fun d k => dict_set k None d) keys acc)) /\
  (forall u, In u keys -> In (u, None) (fold_left (fun d k => dict_set k None d) keys acc)) /\
  (forall u v, In (u, v) (fold_left (fun d k => dict_set k None d) keys acc) ->
               In (u, v) acc \/ (In u keys /\ v = None)).
Proof.
  induction keys as [|k keys IH]; intros acc Hnd; simpl.
  - split; [exact Hnd|]; split; [auto|]; split; [intros _ []|]; auto.
  - destruct (IH (dict_set k None acc) (dict_set_nodup _ _ _ Hnd)) as (N1 & P1 & I1 & B1).
    split; [exact N1|]; split; [|split].
    + intros u v H Hn; apply P1; [apply dict_set_keep; [intros ->; apply Hn; now left | exact H]|].
      intro; apply Hn; now right.
    + intros u [<-|Hu]; [|apply I1, Hu].
      destruct (in_dec Z.eq_dec k keys) as [Hu|Hu]; [apply I1, Hu|].
      apply P1; [apply dict_set_self | exact Hu].
    + intros u v H; destruct (B1 u v H) as [H'|[Hu Hv]].
      * apply in_dict_set in H' as [[-> ->]|H']; [right; split; [now left | reflexivity] | now left].
      * right; split; [now right | exact Hv].
Qed.

Lemma eval_fold_props uf itf known N rel : forall d d',
  NoDup (map fst rel) -> NoDup (map fst d) ->
  fold_left (eval_step uf itf known N) rel (Ok d) = Ok d' ->
  NoDup (map fst d') /\
  (forall k v, In (k, v) d -> ~ In k (map fst rel) -> In (k, v) d') /\
  (forall u ur, In (u, ur) rel ->
     exists p, user_precision uf itf known N u ur = Ok p /\ In (u, Some p) d') /\
  (forall k v, In (k, v) d' -> In (k, v) d \/ (In k (map fst rel) /\ exists p, v = Some p)).
Proof.
  induction rel as [|[u0 r0] rel IH]; intros d d' Hnr Hnd H.
  - injection H as <-; split; [exact Hnd|]; split; [auto|]; split; [intros _ _ []|]; auto.
  - change (fold_left (eval_step uf itf known N) rel
              (p <- user_prec_pair uf itf known N (u0, r0) ;; Ok (dict_set u0 (Some p) d))
            = Ok d') in H.
    destruct (user_prec_pair uf itf known N (u0, r0)) as [p|e] eqn:Ep;
      simpl in H; [|rewrite fold_left_absorb in H; [discriminate | reflexivity]].
    simpl in Hnr; inversion_clear Hnr as [|? ? Hnotin Hnr'].
    destruct (IH _ _ Hnr' (dict_set_nodup _ _ _ Hnd) H) as (N1 & P1 & I1 & B1).
    split; [exact N1|]; split; [|split].
    + intros k v Hk Hn; apply P1.
      * apply dict_set_keep; [intros ->; apply Hn; now left | exact Hk].
      * intro; apply Hn; now right.
    + intros u ur [E|Hin].
      * injection E as <- <-; exists p; split; [exact Ep|].
        apply P1; [apply dict_set_self | exact Hnotin].
      * exact (I1 u ur Hin).
    + intros k v Hk; destruct (B1 k v Hk) as [Hk'|[Hin Hp]].
      * apply in_dict_set in Hk' as [[-> ->]|Hk']; [right; split; [now left | eauto] | now left].
      * right; split; [now right | exact Hp].
Qed.

(** After the evaluation loop, [prec_at_N] has distinct keys; a user of
    [data.users] that is not a key of [relevant_items] maps to [None]; a
    user of [relevant_items] maps to the precision computed for it; and no
    other key is ever added. *)
Theorem eval_prec_lookup uf itf known all_users relevant N d :
  NoDup (map fst relevant) ->
  eval_prec uf itf known all_users relevant N = Ok d ->
  NoDup (map fst d) /\
  (forall u, In u all_users -> ~ In u (map fst relevant) -> In (u, None) d) /\
  (forall u rel, In (u, rel) relevant ->
     exists p, user_precision uf itf known N u rel = Ok p /\ In (u, Some p) d) /\
  (forall u v, In (u, v) d -> In u all_users \/ In u (map fst relevant)).
Proof.
  intros Hnr H; unfold eval_prec, fromkeys in H.
  destruct (fromkeys_fold all_users [] (NoDup_nil _)) as (N0 & _ & I0 & B0).
  destruct (eval_fold_props _ _ _ _ _ _ _ Hnr N0 H) as (N1 & P1 & I1 & B1).
  split; [exact N1|]; split; [|split; [exact I1|]].
  - intros u Hu Hn; apply P1; [apply I0; exact Hu | exact Hn].
  - intros u v Hin; destruct (B1 u v Hin) as [Hd|[Hr _]]; [left | right; exact Hr].
    destruct (B0 u v Hd) as [[]|[Hu _]]; exact Hu.
Qed.

Lemma eval_prec_lookup_witness :
  exists d, eval_prec [[1%Q]] [[1%Q]; [2%Q]] (fun _ => [1]) [1; 2] [(1, [2])] 1 = Ok d /\
            In (2, None) d.
Proof.
  destruct (eval_prec [[1%Q]] [[1%Q]; [2%Q]] (fun _ => [1]) [1; 2] [(1, [2])] 1)
    as [d|e] eqn:E; [|vm_compute in E; discriminate].
  exists d; split; [reflexivity|].
  destruct (eval_prec_lookup [[1%Q]] [[1%Q]; [2%Q]] (fun _ => [1]) [1; 2] [(1, [2])] 1 d
              ltac:(simpl; constructor; [intros [] | constructor]) E) as (_ & Hnone & _).
  apply Hnone; simpl; [right; left; reflexivity | intros [H|[]]; discriminate].
Defined.

(** With [N = 0], [len(hits) / N] raises [ZeroDivisionError] for the first
    user of [relevant_items] whose recommendations are computed, so the
    evaluation never completes. *)
Theorem eval_prec_N_zero uf itf known all_users u rel rest recs :
  get_recommendations uf itf (known u) u 0 true = Ok recs ->
  eval_prec uf itf known all_users ((u, rel) :: rest) 0 = Err ZeroDivisionError.
Proof.
  intro H; unfold eval_prec; cbn [fold_left].
  replace (eval_step uf itf known 0 (Ok (fromkeys all_users)) (u, rel))
    with (@Err (list (Z * option Q)) ZeroDivisionError).
  - apply fold_left_absorb; reflexivity.
  - unfold eval_step, user_prec_pair, user_precision; cbn [bind fst snd].
    rewrite H; reflexivity.
Qed.

Lemma eval_prec_N_zero_witness :
  eval_prec [[1%Q]] [[1%Q]; [2%Q]] (fun _ => [1]) [1; 2] [(1, [2])] 0 = Err ZeroDivisionError.
Proof.
  destruct (get_recommendations [[1%Q]] [[1%Q]; [2%Q]] [1] 1 0 true) as [recs|e] eqn:E;
    [|vm_compute in E; discriminate].
  exact (eval_prec_N_zero [[1%Q]] [[1%Q]; [2%Q]] (fun _ => [1]) [1; 2] 1 [2] [] recs E).
Defined.

(** ** [get_relevant_items] *)

Lemma insert_Z_sorted x l :
  StronglySorted Z.lt l -> ~ In x l -> StronglySorted Z.lt (insert_Z x l).
Proof.
  induction l as [|y l IH]; intros Hs Hx; simpl.
  - repeat constructor.
  - inversion_clear Hs as [|? ? Hs' Hall].
    destruct (Z.leb_spec x y) as [Hle|Hlt].
    + assert (Hxy : x < y) by (assert (x <> y) by (intros ->; apply Hx; now left); lia).
      constructor; [constructor; assumption|].
      constructor; [exact Hxy|].
      eapply Forall_impl; [|exact Hall]; intros z Hz; lia.
    + constructor; [apply IH; [exact Hs' | intro; apply Hx; now right]|].
      apply Forall_forall; intros z Hz.
      apply (Permutation_in _ (insert_Z_perm x l)) in Hz as [<-|Hz]; [lia|].
      rewrite Forall_forall in Hall; exact (Hall z Hz).
Qed.

Lemma sort_Z_sorted l : NoDup l -> StronglySorted Z.lt (sort_Z l).
Proof.
  induction l as [|x l IH]; intro Hnd; simpl; [constructor|].
  inversion_clear Hnd as [|? ? Hx Hnd'].
  apply insert_Z_sorted; [exact (IH Hnd')|].
  intro Hin; apply (Permutation_in _ (sort_Z_perm l)) in Hin; contradiction.
Qed.

Lemma in_sort_nodup u l : In u (sort_Z (nodup Z.eq_dec l)) <-> In u l.
Proof.
  split; intro H.
  - apply (Permutation_in _ (sort_Z_perm _)), nodup_In in H; exact H.
  - apply (Permutation_in _ (Permutation_sym (sort_Z_perm _))), nodup_In, H.
Qed.

Lemma relevant_keys test :
  map fst (get_relevant_items test) = sort_Z (nodup Z.eq_dec (map user test)).
Proof. unfold get_relevant_items; rewrite map_map; apply map_id. Qed.

(** [get_relevant_items] has one entry per user found in the test ratings
    and no other, in strictly increasing user order; the entry of a user
    lists the items of that user's test ratings, in the order of the frame,
    and is never empty. *)
Theorem get_relevant_items_groups test :
  StronglySorted Z.lt (map fst (get_relevant_items test)) /\
  (forall u items, In (u, items) (get_relevant_items test) <->
     In u (map user test) /\ items = items_of_user test u) /\
  Forall (fun g => snd g <> []) (get_relevant_items test).
Proof.
  split; [rewrite relevant_keys; apply sort_Z_sorted, NoDup_nodup|].
  split.
  - intros u items; unfold get_relevant_items; rewrite in_map_iff; split.
    + intros (w & E & Hw); injection E as <- <-; split; [apply in_sort_nodup, Hw | reflexivity].
    + intros [Hu ->]; exists u; split; [reflexivity | apply in_sort_nodup, Hu].
  - unfold get_relevant_items; apply Forall_forall; intros [w items] Hg.
    apply in_map_iff in Hg as (u & E & Hu); injection E as <- <-; simpl.
    apply in_sort_nodup, in_map_iff in Hu as (x & <- & Hx).
    unfold items_of_user; intro E.
    assert (Hi : In (item x) (map item (filter (fun r => user r =? user x) test)))
      by (apply in_map, filter_In; split; [exact Hx | apply Z.eqb_refl]).
    rewrite E in Hi; destruct Hi.
Qed.

(** The evaluation cell run on [relevant_items = get_relevant_items(test)]:
    every user with a test rating gets the precision of its own test items,
    and only such users get a value other than [None]. *)
Theorem eval_over_relevant_items uf itf known all_users test N d :
  eval_prec uf itf known all_users (get_relevant_items test) N = Ok d ->
  NoDup (map fst d) /\
  (forall x, In x test -> exists p,
       user_precision uf itf known N (user x) (items_of_user test (user x)) = Ok p /\
       In (user x, Some p) d) /\
  (forall u p, In (u, Some p) d -> In u (map user test)).
Proof.
  intro H.
  assert (Hnr : NoDup (map fst (get_relevant_items test))).
  { rewrite relevant_keys.
    apply (Permutation_NoDup (Permutation_sym (sort_Z_perm _))), NoDup_nodup. }
  unfold eval_prec, fromkeys in H.
  destruct (fromkeys_fold all_users [] (NoDup_nil _)) as (N0 & _ & _ & B0).
  destruct (eval_fold_props _ _ _ _ _ _ _ Hnr N0 H) as (N1 & _ & I1 & B1).
  split; [exact N1|]; split.
  - intros x Hx; apply I1; unfold get_relevant_items; apply in_map_iff.
    exists (user x); split; [reflexivity|]; apply in_sort_nodup, in_map, Hx.
  - intros u p Hin; destruct (B1 u (Some p) Hin) as [Hd|[Hr _]].
    + destruct (B0 u (Some p) Hd) as [[]|[_ E]]; discriminate.
    + rewrite relevant_keys in Hr; exact (proj1 (in_sort_nodup _ _) Hr).
Qed.

Definition rel_test : list Rating := [mkRating 1 2 5; mkRating 1 1 4].

Lemma eval_over_relevant_items_witness :
  exists d, eval_prec [[1%Q]] [[1%Q]; [2%Q]] (fun _ => []) [1] (get_relevant_items rel_test) 1
              = Ok d /\
            exists p, In (1, Some p) d.
Proof.
  destruct (eval_prec [[1%Q]] [[1%Q]; [2%Q]] (fun _ => []) [1] (get_relevant_items rel_test) 1)
    as [d|e] eqn:E; [|vm_compute in E; discriminate].
  exists d; split; [reflexivity|].
  destruct (eval_over_relevant_items [[1%Q]] [[1%Q]; [2%Q]] (fun _ => []) [1] rel_test 1 d E)
    as (_ & Hall & _).
  destruct (Hall (mkRating 1 2 5) (or_introl eq_refl)) as (p & _ & Hp).
  exists p; exact Hp.
Defined.

(** ** Positive ratings and popularity counts (Unit 2 notebook) *)

Lemma sumQ_le_bound (l : list Q) x :
  (forall y, In y l -> y <= x)%Q -> (sumQ l <= x * inject_Z (Z.of_nat (length l)))%Q.
Proof.
  induction l as [|y l IH]; intro H; simpl.
  - rewrite Qmult_0_r; apply Qle_refl.
  - rewrite Zpos_P_of_succ_nat, <- Z.add_1_l, inject_Z_plus.
    change (inject_Z 1) with 1%Q.
    setoid_replace (x * (1 + inject_Z (Z.of_nat (length l))))%Q
      with (x + x * inject_Z (Z.of_nat (length l)))%Q by ring.
    apply Qplus_le_compat; [apply H; now left | apply IH; intros; apply H; now right].
Qed.

Lemma exists_max_rating (l : list Rating) :
  l <> [] -> exists x, In x l /\ forall y, In y l -> (rating y <= rating x)%Q.
Proof.
  induction l as [|a l IH]; intro H; [contradiction|].
  destruct l as [|b l].
  - exists a; split; [now left|]; intros y [<-|[]]; apply Qle_refl.
  - destruct (IH ltac:(discriminate)) as (x & Hx & Hmax).
    destruct (Qlt_le_dec (rating x) (rating a)) as [Hlt|Hle].
    + exists a; split; [now left|]; intros y [<-|Hy]; [apply Qle_refl|].
      apply Qle_trans with (rating x); [apply Hmax, Hy | apply Qlt_le_weak, Hlt].
    + exists x; split; [now right|]; intros y [<-|Hy]; [exact Hle | apply Hmax, Hy].
Qed.

(** Every rating kept by [keep_ratings] is at least its user's mean
    rating, and every user of the training ratings keeps at least one
    rating (one of its highest): the positive-only popularity never loses
    a user. *)
Theorem positive_ratings_keep_every_user train :
  (forall r, In r (positive_train_ratings train) ->
     In r train /\ exists m, user_mean_rating train (user r) = Some m /\ (m <= rating r)%Q) /\
  (forall r, In r train -> exists r', In r' (positive_train_ratings train) /\ user r' = user r).
Proof.
  split.
  - intros r Hr; unfold positive_train_ratings in Hr; apply filter_In in Hr as [Hr Hk].
    split; [exact Hr|]; unfold keep_rating in Hk.
    destruct (user_mean_rating train (user r)) as [m|]; [|discriminate].
    exists m; split; [reflexivity | apply Qle_bool_iff, Hk].
  - intros r Hr.
    set (L := filter (fun x => user x =? user r) train).
    assert (HL : In r L) by (apply filter_In; split; [exact Hr | apply Z.eqb_refl]).
    destruct (exists_max_rating L ltac:(intro E; rewrite E in HL; destruct HL))
      as (x & Hx & Hmax).
    pose proof Hx as Hx'; apply filter_In in Hx' as [HxT Hxu]; apply Z.eqb_eq in Hxu.
    exists x; split; [|exact Hxu].
    unfold positive_train_ratings; apply filter_In; split; [exact HxT|].
    unfold keep_rating, user_mean_rating; rewrite Hxu; fold L.
    assert (NE : map rating L <> [])
      by (intro E; apply map_eq_nil in E; rewrite E in HL; destruct HL).
    assert (B : (sumQ (map rating L) <= rating x * inject_Z (Z.of_nat (length (map rating L))))%Q).
    { apply sumQ_le_bound; intros z Hz; apply in_map_iff in Hz as (w & <- & Hw); apply Hmax, Hw. }
    revert NE B; destruct (map rating L) as [|y ys]; intros NE B; [contradiction|].
    cbv beta iota delta [np_mean].
    apply Qle_bool_iff, Qle_shift_div_r; [|exact B].
    change 0%Q with (inject_Z 0); rewrite <- Zlt_Qlt; simpl; lia.
Qed.

Definition pos_train : list Rating :=
  [mkRating 1 1 2; mkRating 1 2 5; mkRating 2 1 3; mkRating 2 3 3].

Lemma positive_ratings_keep_every_user_witness :
  exists r', In r' (positive_train_ratings pos_train) /\ user r' = 2.
Proof.
  exact (proj2 (positive_ratings_keep_every_user pos_train) (mkRating 2 1 3)
           ltac:(simpl; tauto)).
Defined.

Lemma filter_filter_length_le {A} (f g : A -> bool) l :
  (length (filter f (filter g l)) <= length (filter f l))%nat.
Proof.
  induction l as [|a l IH]; simpl; [lia|].
  destruct (g a); simpl; destruct (f a); simpl; lia.
Qed.

(** Each row of [joint_counts] pairs the popularity of an item with its
    positive popularity: the second count is at least 1 and at most the
    first; there is one row per item with a positive rating, since every
    such item is in the index of [item_popularity]. *)
Theorem joint_counts_bounds train :
  Forall (fun c => (1 <= snd c <= fst c)%nat) (joint_counts train) /\
  length (joint_counts train) = length (popularity_index (positive_train_ratings train)).
Proof.
  set (pos := positive_train_ratings train).
  assert (Hsub : forall i, In i (popularity_index pos) -> In i (popularity_index train)).
  { unfold popularity_index; intros i Hi; apply nodup_In in Hi; apply nodup_In.
    apply in_map_iff in Hi as (r & <- & Hr); apply in_map.
    unfold pos, positive_train_ratings in Hr; apply filter_In in Hr as [Hr _]; exact Hr. }
  unfold joint_counts; fold pos; split.
  - apply Forall_forall; intros c Hc; apply in_map_iff in Hc as (i & <- & Hi); simpl.
    apply (proj1 (intersect1d_spec _ _)) in Hi as [Hi _].
    unfold popularity_index in Hi; apply nodup_In, in_map_iff in Hi as (r & <- & Hr).
    split.
    + unfold count_item; destruct (filter (fun r' => item r' =? item r) pos) eqn:E; [|simpl; lia].
      assert (Hin : In r (filter (fun r' => item r' =? item r) pos))
        by (apply filter_In; split; [exact Hr | apply Z.eqb_refl]).
      rewrite E in Hin; destruct Hin.
    + unfold count_item, pos, positive_train_ratings.
      apply filter_filter_length_le.
  - rewrite length_map; unfold intersect1d.
    rewrite (Permutation_length (sort_Z_perm _)), filter_all.
    + rewrite nodup_fixed_point; [reflexivity | apply NoDup_nodup].
    + intros i Hi; apply in_existsb_eqb, Hsub, Hi.
Qed.

(** ** The loop of [get_recommendations] *)

Lemma collect_prefix N preds : forall acc,
  Z.of_nat (length acc) < N ->
  collect N preds acc = acc ++ firstn (Z.to_nat N - length acc) preds.
Proof.
  induction preds as [|p ps IH]; intros acc H; cbn [collect].
  - rewrite firstn_nil, app_nil_r; reflexivity.
  - rewrite length_app; cbn [length].
    destruct (Z.eqb_spec (Z.of_nat (length acc + 1)) N) as [E|E].
    + replace (Z.to_nat N - length acc)%nat with 1%nat by lia; reflexivity.
    + rewrite IH by (rewrite length_app; cbn [length]; lia).
      rewrite length_app; cbn [length].
      replace (Z.to_nat N - length acc)%nat with (S (Z.to_nat N - (length acc + 1)))%nat by lia.
      cbn [firstn]; rewrite <- app_assoc; reflexivity.
Qed.

(** For [N >= 1], [get_recommendations] returns the first [N] entries of
    the predictions in their iteration order (all of them if there are
    fewer than [N]). *)
Theorem get_recommendations_first_N uf itf known u N rkp preds :
  1 <= N -> get_prediction uf itf known u rkp = Ok preds ->
  get_recommendations uf itf known u N rkp = Ok (firstn (Z.to_nat N) preds).
Proof.
  intros HN H; unfold get_recommendations; rewrite H; cbn [bind].
  rewrite collect_prefix by (cbn [length]; lia); cbn [app length]; rewrite Nat.sub_0_r; reflexivity.
Qed.

Lemma get_recommendations_first_N_witness :
  exists preds, get_prediction [[1%Q]] [[3%Q]; [1%Q]; [2%Q]] [] 1 false = Ok preds /\
    get_recommendations [[1%Q]] [[3%Q]; [1%Q]; [2%Q]] [] 1 2 false = Ok (firstn 2 preds).
Proof.
  destruct (get_prediction [[1%Q]] [[3%Q]; [1%Q]; [2%Q]] [] 1 false) as [preds|e] eqn:E;
    [|vm_compute in E; discriminate].
  exists preds; split; [reflexivity|].
  exact (get_recommendations_first_N [[1%Q]] [[3%Q]; [1%Q]; [2%Q]] [] 1 2 false preds
           ltac:(lia) E).
Defined.

(** ** [item_order] *)

Lemma count_item_cons r rs i :
  count_item (r :: rs) i = ((if Z.eqb (item r) i then 1 else 0) + count_item rs i)%nat.
Proof. unfold count_item; simpl; destruct (item r =? i); reflexivity. Qed.

Lemma list_sum_indicator_absent x keys :
  ~ In x keys -> list_sum (map (fun k => if Z.eqb x k then 1 else 0)%nat keys) = 0%nat.
Proof.
  induction keys as [|k keys IH]; intro H; simpl; [reflexivity|].
  destruct (Z.eqb_spec x k) as [->|_]; [destruct H; now left|].
  apply IH; intro; apply H; now right.
Qed.

Lemma list_sum_indicator x keys :
  NoDup keys -> In x keys -> list_sum (map (fun k => if Z.eqb x k then 1 else 0)%nat keys) = 1%nat.
Proof.
  induction keys as [|k keys IH]; intros Hnd H; [destruct H|].
  inversion_clear Hnd as [|? ? Hk Hnd']; simpl.
  destruct (Z.eqb_spec x k) as [->|Hne].
  - rewrite list_sum_indicator_absent by exact Hk; reflexivity.
  - apply IH; [exact Hnd'|]; destruct H as [->|H]; [contradiction | exact H].
Qed.

Lemma list_sum_map_add {A} (f g : A -> nat) l :
  list_sum (map (fun k => f k + g k)%nat l) = (list_sum (map f l) + list_sum (map g l))%nat.
Proof. induction l as [|a l IH]; simpl; lia. Qed.

Lemma sum_counts keys rs :
  NoDup keys -> (forall r, In r rs -> In (item r) keys) ->
  list_sum (map (count_item rs) keys) = length rs.
Proof.
  intros Hnd; induction rs as [|r rs IH]; intro Hk.
  - simpl; induction keys as [|k keys IHk]; [reflexivity|].
    inversion_clear Hnd; simpl; rewrite IHk; auto; intros _ [].
  - rewrite (map_ext _ _ (count_item_cons r rs)), list_sum_map_add.
    rewrite list_sum_indicator by (auto; apply Hk; now left).
    rewrite IH by (intros; apply Hk; now right); reflexivity.
Qed.

(** [item_order] holds the counts column of [item_popularity], not its
    index: whatever the order of equal counts, its entries are all at least
    1 and add up to the number of training ratings, so [top_movie_ids]
    are rating counts, not item ids. *)
Theorem item_order_holds_counts sort_counts train :
  (forall l, Permutation (sort_counts l) l) ->
  Forall (fun c => 1 <= c)%nat (item_order sort_counts train) /\
  list_sum (item_order sort_counts train) = length train.
Proof.
  intro Hperm; unfold item_order, value_counts.
  assert (P : Permutation (map snd (sort_counts (map (fun i => (i, count_item train i))
                                                    (popularity_index train))))
                          (map (count_item train) (popularity_index train))).
  { rewrite (Permutation_map snd (Hperm _)), map_map; reflexivity. }
  split.
  - apply Forall_forall; intros c Hc; apply (Permutation_in _ P) in Hc.
    apply in_map_iff in Hc as (i & <- & Hi).
    unfold popularity_index in Hi; apply nodup_In, in_map_iff in Hi as (r & <- & Hr).
    unfold count_item; destruct (filter (fun r' => item r' =? item r) train) eqn:E; [|simpl; lia].
    assert (Hin : In r (filter (fun r' => item r' =? item r) train))
      by (apply filter_In; split; [exact Hr | apply Z.eqb_refl]).
    rewrite E in Hin; destruct Hin.
  - rewrite (Permutation_list_sum P); apply sum_counts; [apply NoDup_nodup|].
    intros r Hr; apply nodup_In, in_map, Hr.
Qed.

Definition one_movie : list Rating := [mkRating 7 42 5; mkRating 8 42 3].

Lemma item_order_holds_counts_witness :
  top_movie_ids (fun l => l) one_movie = [2%nat] /\
  list_sum (item_order (fun l => l) one_movie) = length one_movie.
Proof.
  split; [reflexivity|].
  exact (proj2 (item_order_holds_counts (fun l => l) one_movie (fun l => Permutation_refl l))).
Defined.
